(** * pginspector (old/main.go): foreign-key-aware row extraction

    A shallow embedding of the extraction prototype of
    [parrotmac/pginspector] ([old/main.go]) and the properties that its
    design document states about it.

    - The schema model ([InspectedColumn], [InspectedTable], [ResultSet])
      and its operations are pure Go code and are transcribed as
      functions.
    - [traverseTables] recurses through live database lookups and two
      package-level variables ([fullContents], [visited]).  It is
      embedded with explicit state passing over [Session], the database
      connection is a function from the SQL text to the driver's answer,
      and the depth of the Go call stack is bounded by a [fuel] argument.
    - A Go [panic] ends the process; it is the [Panicked] outcome. *)

From Stdlib Require Import ZArith Ascii String Strings.Byte.
From stdpp Require Import base option list strings gmap sorting.

Local Open Scope string_scope.
Local Open Scope list_scope.
Local Open Scope Z_scope.

(** ** Characters that cannot be written inside a string literal *)

Definition dquote : string := String (ascii_of_nat 34) EmptyString.
Definition newline : string := String (ascii_of_nat 10) EmptyString.

(** ** Schema model (main.go, lines 18-123) *)

(** [InspectedColumn]; the Go fields [Name] and [Type] are [col_Name]
    and [col_Type]. *)
Record InspectedColumn := mkColumn {
  col_Name : string;
  col_Type : string;
  PointsToTable : string;
  PointsToColumn : string;
  OrdinalPosition : Z
}.

(** [InspectedTable]; the Go field [Name] is [tbl_Name]. *)
Record InspectedTable := mkTable {
  tbl_Name : string;
  Columns : list InspectedColumn
}.

Record ResultSet := mkResultSet {
  Tables : list InspectedTable
}.

(** How a Go panic was raised: by an explicit [panic("...")] with its
    message, or by the runtime or a [panic(err)]. *)
Inductive panic :=
| PanicMsg (msg : string)
| PanicIndexOutOfRange
| PanicTypeAssertion
| PanicQueryError
| PanicScanError
| PanicMarshalError.

(** Outcome of a Go call that may panic, or that may exhaust the
    call-stack budget of the embedding. *)
Inductive outcome (A : Type) :=
| Done (a : A)
| Panicked (p : panic)
| OutOfFuel.
Arguments Done {A} a.
Arguments Panicked {A} p.
Arguments OutOfFuel {A}.

#[global] Instance outcome_ret : MRet outcome := fun A a => Done a.
#[global] Instance outcome_fmap : FMap outcome := fun A B f c =>
  match c with
  | Done a => Done (f a)
  | Panicked p => Panicked p
  | OutOfFuel => OutOfFuel
  end.
#[global] Instance outcome_bind : MBind outcome := fun A B k c =>
  match c with
  | Done a => k a
  | Panicked p => Panicked p
  | OutOfFuel => OutOfFuel
  end.

(** [s[i]] for a Go [int] index: out of range (and so [-1]) panics. *)
Definition index {A} (s : list A) (i : Z) : outcome A :=
  if i <? 0 then Panicked PanicIndexOutOfRange
  else match s !! Z.to_nat i with
       | Some a => Done a
       | None => Panicked PanicIndexOutOfRange
       end.

Fixpoint contains (s : list string) (e : string) : bool :=
  match s with
  | [] => false
  | a :: s' => if decide (a = e) then true else contains s' e
  end.

Fixpoint GetColumnByName_loop (cols : list InspectedColumn) (name : string)
  : outcome InspectedColumn :=
  match cols with
  | [] => Panicked (PanicMsg "Could not find matching column")
  | c :: cols' =>
      if decide (col_Name c = name) then Done c
      else GetColumnByName_loop cols' name
  end.

Definition GetColumnByName (it : InspectedTable) (name : string)
  : outcome InspectedColumn :=
  GetColumnByName_loop (Columns it) name.

(** Lists the names of the other tables that this table points to. *)
Fixpoint ListTablesPointedTo_loop (cols : list InspectedColumn)
    (res : list string) : list string :=
  match cols with
  | [] => res
  | c :: cols' =>
      if decide (PointsToTable c ≠ "")
      then ListTablesPointedTo_loop cols' (res ++ [PointsToTable c])
      else ListTablesPointedTo_loop cols' res
  end.

Definition ListTablesPointedTo (it : InspectedTable) : list string :=
  ListTablesPointedTo_loop (Columns it) [].

Fixpoint HasPointerToColumn_loop (cols : list InspectedColumn)
    (tableName columnName : string) : bool :=
  match cols with
  | [] => false
  | col :: cols' =>
      if decide (PointsToTable col = tableName ∧ PointsToColumn col = columnName)
      then true
      else HasPointerToColumn_loop cols' tableName columnName
  end.

Definition HasPointerToColumn (it : InspectedTable)
    (tableName columnName : string) : bool :=
  HasPointerToColumn_loop (Columns it) tableName columnName.

(** Returns the first column pointing at [tableName] ([nil] is [None]). *)
Fixpoint HasPointerToTable_loop (cols : list InspectedColumn)
    (tableName : string) : option InspectedColumn :=
  match cols with
  | [] => None
  | col :: cols' =>
      if decide (PointsToTable col = tableName) then Some col
      else HasPointerToTable_loop cols' tableName
  end.

Definition HasPointerToTable (it : InspectedTable) (tableName : string)
  : option InspectedColumn :=
  HasPointerToTable_loop (Columns it) tableName.

Fixpoint GetTableIndexByName_loop (ts : list InspectedTable) (name : string)
    (idx : Z) : Z :=
  match ts with
  | [] => -1
  | t :: ts' =>
      if decide (tbl_Name t = name) then idx
      else GetTableIndexByName_loop ts' name (idx + 1)
  end.

Definition GetTableIndexByName (rs : ResultSet) (name : string) : Z :=
  GetTableIndexByName_loop (Tables rs) name 0.

(** The scan of [AddTable]: does some registered table carry [name]? *)
Fixpoint AddTable_scan (ts : list InspectedTable) (name : string) : bool :=
  match ts with
  | [] => false
  | t :: ts' => if decide (tbl_Name t = name) then true else AddTable_scan ts' name
  end.

(** [AddTable] mutates its receiver; the result is the receiver after the
    call together with the panic that ended the call, if any. *)
Definition AddTable (rs : ResultSet) (table : InspectedTable)
  : ResultSet * option panic :=
  if AddTable_scan (Tables rs) (tbl_Name table)
  then (rs, Some (PanicMsg "Cannot add multiple tables with the same name"))
  else (mkResultSet (Tables rs ++ [table]), None).

(** The inner loop of [DetermineInsertTableOrder], with its [break]. *)
Fixpoint allDepsAvailable_loop (pointsTo deps : list string) : bool :=
  match deps with
  | [] => true
  | dep :: deps' =>
      if negb (contains pointsTo dep) then false
      else allDepsAvailable_loop pointsTo deps'
  end.

Fixpoint DetermineInsertTableOrder_loop (ts : list InspectedTable)
    (res : list string) : list string :=
  match ts with
  | [] => res
  | t :: ts' =>
      let pointsTo := ListTablesPointedTo t in
      (* Has no dependencies, and not already in result set *)
      if bool_decide (length pointsTo = 0%nat) && negb (contains res (tbl_Name t))
      then DetermineInsertTableOrder_loop ts' (res ++ [tbl_Name t])
      else
        let allDepsAvailable := allDepsAvailable_loop pointsTo pointsTo in
        if allDepsAvailable
        then DetermineInsertTableOrder_loop ts' (res ++ [tbl_Name t])
        else DetermineInsertTableOrder_loop ts' res
  end.

Definition DetermineInsertTableOrder (rs : ResultSet) : list string :=
  DetermineInsertTableOrder_loop (Tables rs) [].

(** ** Values handed over by the database driver *)

(** A [time.Time], by the calendar and clock fields that [Format] reads
    (the wall clock in the value's own location). *)
Record Time := mkTime {
  year : Z;
  month : Z;
  day : Z;
  hour : Z;
  minute : Z;
  second : Z;
  nanosecond : Z
}.

(** The dynamic values of [interface{}] that the code inspects.  A
    [[16]uint8] is a byte list of length 16. *)
Inductive Value :=
| VNil
| VString (s : string)
| VBytes (d : list byte)
| VArray16 (v : list byte)
| VTime (t : Time)
| VInt (n : Z)
| VOther (tag : string).

(** ** Formatting helpers of the Go libraries *)

Fixpoint strings_Join (elems : list string) (sep : string) : string :=
  match elems with
  | [] => ""
  | [e] => e
  | e :: elems' => e +:+ sep +:+ strings_Join elems' sep
  end.

Definition hexDigit (n : N) : ascii :=
  if (n <? 10)%N then ascii_of_N (48 + n) else ascii_of_N (87 + n).

Definition hexByte (b : byte) (rest : string) : string :=
  let n := Byte.to_N b in
  String (hexDigit (n / 16)) (String (hexDigit (n mod 16)) rest).

(** [hex.Encode]: two lower-case digits for each byte. *)
Fixpoint hex_Encode (src : list byte) : string :=
  match src with
  | [] => ""
  | b :: src' => hexByte b (hex_Encode src')
  end.

(** [UUID.String] (both uuid libraries): xxxxxxxx-xxxx-xxxx-xxxx-xxxxxxxxxxxx. *)
Definition uuid_String (u : list byte) : string :=
  hex_Encode (take 4 u) +:+ "-" +:+
  hex_Encode (take 2 (drop 4 u)) +:+ "-" +:+
  hex_Encode (take 2 (drop 6 u)) +:+ "-" +:+
  hex_Encode (take 2 (drop 8 u)) +:+ "-" +:+
  hex_Encode (drop 10 u).

Definition digitChar (d : Z) : ascii := ascii_of_N (Z.to_N (48 + d)).

Fixpoint digitsString (ds : list Z) : string :=
  match ds with
  | [] => ""
  | d :: ds' => String (digitChar d) (digitsString ds')
  end.

(** The decimal digits of [u >= 0], most significant first. *)
Fixpoint digits_loop (n : nat) (u : Z) (acc : list Z) : list Z :=
  match n with
  | O => acc
  | S n' => if u <? 10 then u :: acc else digits_loop n' (u / 10) (u mod 10 :: acc)
  end.

Definition digits (u : Z) : list Z :=
  digits_loop (S (Z.to_nat (Z.log2 u))) u [].

(** [appendInt] of package [time]: sign, zero padding up to [width], digits. *)
Definition appendInt (x : Z) (width : nat) : string :=
  let ds := digits (Z.abs x) in
  (if x <? 0 then "-" else "") +:+
  digitsString (replicate (width - length ds) 0 ++ ds).

(** Exactly [n] decimal digits of [u], the way [formatNano] fills its buffer. *)
Fixpoint fixedDigits (n : nat) (u : Z) (acc : list Z) : list Z :=
  match n with
  | O => acc
  | S n' => fixedDigits n' (u / 10) (u mod 10 :: acc)
  end.

(** [formatNano] for a [.000]-style layout element with [n] digits. *)
Definition formatNano (nanosec : Z) (n : nat) : string :=
  "." +:+ digitsString (take n (fixedDigits 9 nanosec [])).

(** [j.Format("2006-01-02T15:04:05.000Z")]: a "Z" that is not followed
    by "07" is not a zone element of the layout, it is copied as it is. *)
Definition Format_2006_01_02T15_04_05_000Z (j : Time) : string :=
  appendInt (year j) 4 +:+ "-" +:+ appendInt (month j) 2 +:+ "-" +:+
  appendInt (day j) 2 +:+ "T" +:+ appendInt (hour j) 2 +:+ ":" +:+
  appendInt (minute j) 2 +:+ ":" +:+ appendInt (second j) 2 +:+
  formatNano (nanosecond j) 3 +:+ "Z".

(** The timestamp format as the specification words it:
    YYYY-MM-DDTHH:MM:SS.mmm, every field with a fixed number of digits,
    the fraction in milliseconds, and no zone designator. *)
Definition spec_timestamp (j : Time) : string :=
  let ms := nanosecond j / 1000000 in
  digitsString [year j / 1000; year j / 100 mod 10; year j / 10 mod 10;
                year j mod 10] +:+ "-" +:+
  digitsString [month j / 10; month j mod 10] +:+ "-" +:+
  digitsString [day j / 10; day j mod 10] +:+ "T" +:+
  digitsString [hour j / 10; hour j mod 10] +:+ ":" +:+
  digitsString [minute j / 10; minute j mod 10] +:+ ":" +:+
  digitsString [second j / 10; second j mod 10] +:+ "." +:+
  digitsString [ms / 100; ms / 10 mod 10; ms mod 10].

(** The field ranges of a [time.Time] with a four-digit year. *)
Definition valid_Time (j : Time) : Prop :=
  0 ≤ year j ≤ 9999 ∧ 1 ≤ month j ≤ 12 ∧ 1 ≤ day j ≤ 31 ∧
  0 ≤ hour j ≤ 23 ∧ 0 ≤ minute j ≤ 59 ∧ 0 ≤ second j ≤ 59 ∧
  0 ≤ nanosecond j ≤ 999999999.

(** [regBytes := make([]byte, 16)] followed by
    [for i := range d { regBytes[i] = d[i] }]. *)
Definition fillRegBytes (d : list byte) : outcome (list byte) :=
  if decide (16 < length d)%nat then Panicked PanicIndexOutOfRange
  else Done (d ++ replicate (16 - length d) x00).

(** ** The session: the package-level variables of main.go *)

Record tableContents := mkTableContents {
  TableName : string;
  InsertColumnNames : list string;
  ValuesRows : list string
}.

Record Session := mkSession {
  fullContents : list tableContents;
  visited : list string
}.

(** The state in which the process starts. *)
Definition initial_session : Session := mkSession [] [].

Fixpoint getOrCreateTableContents_loop (cs : list tableContents)
    (tableName : string) (idx : nat) : option nat :=
  match cs with
  | [] => None
  | c :: cs' =>
      if decide (TableName c = tableName) then Some idx
      else getOrCreateTableContents_loop cs' tableName (S idx)
  end.

(** Returns the index together with the updated [fullContents]. *)
Definition getOrCreateTableContents (fc : list tableContents)
    (tableName : string) : nat * list tableContents :=
  match getOrCreateTableContents_loop fc tableName 0 with
  | Some idx => (idx, fc)
  | None => (length fc, fc ++ [mkTableContents tableName [] []])
  end.

(** ** The database connection *)

(** A fetched row: its field descriptions with the decoded value of each
    field, in order.  [rows.Values()] returns the values, and
    [rows.Scan] into [*interface{}] destinations stores the same values
    (a database null is [nil]). *)
Abbreviation Row := (list (string * Value)).

Inductive QueryResult :=
| QueryFailed
| QueryRows (rows : list Row).

(** The text sent by [traverseTables]; [identifier] is printed with [%v]
    and is a string at every call site. *)
Definition selectQuery (fromTable identifyingColumnName identifier : string)
  : string :=
  "SELECT * FROM " +:+ fromTable +:+ " WHERE " +:+ identifyingColumnName +:+
  " = '" +:+ identifier +:+ "' ORDER BY " +:+ "id" +:+ " DESC LIMIT 1".

(** [resultData[name]]: a missing key reads as [nil]. *)
Definition resultData_get (resultData : gmap string Value) (name : string)
  : Value :=
  default VNil (resultData !! name).

(** Lines 374-421: the destinations start as [nil]; when [rows.Next()]
    yields a row, the loop over the raw values indexes [tabl.Columns],
    [rows.Scan] needs as many destinations as fields and overwrites each
    of them, and [resultData] maps each field name to its value. *)
Definition fetch (tabl : InspectedTable) (rows : list Row)
  : outcome (list Value * gmap string Value) :=
  let n := length (Columns tabl) in
  match rows with
  | [] => Done (replicate n VNil, ∅)
  | row :: _ =>
      if decide (n < length row)%nat then Panicked PanicIndexOutOfRange
      else if decide (length row ≠ n) then Panicked PanicScanError
      else Done (row.*2, foldl (λ m field, <[field.1 := field.2]> m) ∅ row)
  end.

Definition nil_marker : string := "<<<<<<<<<<<nil>>>>>>>>>>".

Section Extraction.

(** The connection answers a query text; the [fmt] verbs [%v] and
    [%+v] and [json.Marshal] are taken as they are. *)
Variable conn_Query : string → QueryResult.
Variable Sprintf_v : Value → string.
Variable Sprintf_plus_v : Value → string.
Variable json_Marshal : Value → option string.

Definition AsStringFromValue (pgTypeName : string) (value : Value)
  : outcome string :=
  match value with
  | VNil => Done nil_marker
  | _ =>
      if contains ["text"; "character varying"; "json"] pgTypeName then
        match value with
        | VString str => Done str
        | VBytes d => Done (string_of_list_byte d)
        | _ => Panicked PanicTypeAssertion
        end
      else if decide (pgTypeName = "uuid") then
        match value with
        | VArray16 v => regBytes ← fillRegBytes v; Done (uuid_String regBytes)
        | VBytes d => regBytes ← fillRegBytes d; Done (uuid_String regBytes)
        | _ => Panicked PanicTypeAssertion
        end
      else if contains ["timestamp with time zone";
                        "timestamp without time zone"] pgTypeName then
        Done "<timestamp>"
      else if decide (pgTypeName = "integer") then Done (Sprintf_v value)
      else Done ""
  end.

(** Lines 431-467 for one column: the literal of the scanned value [e]
    of a column of declared type [typ]. *)
Definition literal (typ : string) (e : Value) : outcome string :=
  match e with
  | VNil => Done "NULL"
  | _ =>
      if decide (typ = "uuid") then
        match e with
        | VArray16 j => Done ("'" +:+ uuid_String j +:+ "'")
        | _ => Panicked PanicTypeAssertion
        end
      else if contains ["timestamp"; "timestamp with time zone";
                        "timestamp without time zone"] typ then
        match e with
        | VTime j => Done ("'" +:+ Format_2006_01_02T15_04_05_000Z j +:+ "'")
        | _ => Panicked PanicTypeAssertion
        end
      else if contains ["json"; "jsonb"] typ then
        match json_Marshal e with
        | Some b => Done ("'" +:+ b +:+ "'")
        | None => Panicked PanicMarshalError
        end
      else Done ("'" +:+ Sprintf_plus_v e +:+ "'")
  end.

Fixpoint rowStringVals_loop (cols : list InspectedColumn)
    (ifVals : list Value) (rowStringVals : list string) {struct ifVals}
  : outcome (list string) :=
  match ifVals with
  | [] => Done rowStringVals
  | e :: ifVals' =>
      match cols with
      | [] => Panicked PanicIndexOutOfRange
      | col :: cols' =>
          a ← literal (col_Type col) e;
          rowStringVals_loop cols' ifVals' (rowStringVals ++ [a])
      end
  end.

(** What a recursive call of [traverseTables] is to its loops. *)
Definition traversal : Type :=
  Session → string → string → string → outcome Session.

(** Lines 472-478: every table with a column pointing at [fromTable]
    is entered, looked up by this row's value of the referenced column. *)
Fixpoint traverseTables_forward (rec : traversal) (fromTable : string)
    (resultData : gmap string Value) (ts : list InspectedTable)
    (st : Session) : outcome Session :=
  match ts with
  | [] => Done st
  | t :: ts' =>
      match HasPointerToTable t fromTable with
      | Some col =>
          ident ← AsStringFromValue (col_Type col)
                    (resultData_get resultData (PointsToColumn col));
          st' ← rec st (tbl_Name t) (col_Name col) ident;
          traverseTables_forward rec fromTable resultData ts' st'
      | None => traverseTables_forward rec fromTable resultData ts' st
      end
  end.

(** Lines 479-494: every foreign-key column of the current table with
    a value that is not [nil] and not yet in [visited] is followed. *)
Fixpoint traverseTables_backward (rec : traversal)
    (resultData : gmap string Value) (cols : list InspectedColumn)
    (st : Session) : outcome Session :=
  match cols with
  | [] => Done st
  | col :: cols' =>
      if decide (PointsToTable col ≠ "" ∧ PointsToColumn col ≠ "") then
        match resultData_get resultData (col_Name col) with
        | VNil => traverseTables_backward rec resultData cols' st
        | data =>
            ident ← AsStringFromValue (col_Type col) data;
            if contains (visited st) ident
            then traverseTables_backward rec resultData cols' st
            else
              st' ← rec (mkSession (fullContents st) (visited st ++ [ident]))
                      (PointsToTable col) (PointsToColumn col) ident;
              traverseTables_backward rec resultData cols' st'
        end
      else traverseTables_backward rec resultData cols' st
  end.

(** One activation of [traverseTables]; [rec] stands for its recursive
    calls. *)
Definition traverseTables_body (rec : traversal) (resSet : ResultSet)
    (st : Session) (fromTable identifyingColumnName identifier : string)
  : outcome Session :=
  match conn_Query (selectQuery fromTable identifyingColumnName identifier) with
  | QueryFailed => Panicked PanicQueryError
  | QueryRows rows =>
      tabl ← index (Tables resSet) (GetTableIndexByName resSet fromTable);
      fetched ← fetch tabl rows;
      let ifVals := fetched.1 in
      let resultData := fetched.2 in
      let created := getOrCreateTableContents (fullContents st) fromTable in
      let colIdx := created.1 in
      let fc1 :=
        alter (λ c, mkTableContents (TableName c)
                      (map col_Name (Columns tabl)) (ValuesRows c))
              colIdx created.2 in
      rowStringVals ← rowStringVals_loop (Columns tabl) ifVals [];
      let rowVal := strings_Join rowStringVals ", " in
      let fc2 :=
        alter (λ c, mkTableContents (TableName c) (InsertColumnNames c)
                      (ValuesRows c ++ [rowVal]))
              colIdx fc1 in
      st1 ← traverseTables_forward rec fromTable resultData (Tables resSet)
              (mkSession fc2 (visited st));
      traverseTables_backward rec resultData (Columns tabl) st1
  end.

(** [traverseTables], with at most [fuel] nested activations. *)
Fixpoint traverseTables (fuel : nat) (resSet : ResultSet) (st : Session)
    (fromTable identifyingColumnName identifier : string) : outcome Session :=
  match fuel with
  | O => OutOfFuel
  | S fuel' =>
      traverseTables_body (traverseTables fuel' resSet) resSet st
        fromTable identifyingColumnName identifier
  end.

(** ** Statement emission (main, lines 308-335) *)

Fixpoint valueRows_loop (rows : list string) (valueRows : string) : string :=
  match rows with
  | [] => valueRows
  | r :: rows' =>
      let valueRows := valueRows +:+ "(" +:+ r +:+ ")" in
      match rows' with
      | [] => valueRows
      | _ :: _ => valueRows_loop rows' (valueRows +:+ "," +:+ newline)
      end
  end.

Definition insertStatement (tblInfo : tableContents) : string :=
  let quotedColumnNames :=
    map (λ colName, dquote +:+ colName +:+ dquote) (InsertColumnNames tblInfo) in
  "INSERT" +:+ newline +:+
  "INTO " +:+ dquote +:+ "public" +:+ dquote +:+ "." +:+
    dquote +:+ TableName tblInfo +:+ dquote +:+
    "(" +:+ strings_Join quotedColumnNames "," +:+ ")" +:+ newline +:+
  "VALUES" +:+ newline +:+
  valueRows_loop (ValuesRows tblInfo) "" +:+ newline +:+
  ";".

(** The statements printed for one name of the ordering, each with the
    table it inserts into. *)
Fixpoint emit_table (tableName : string) (fc : list tableContents)
  : list (string * string) :=
  match fc with
  | [] => []
  | tblInfo :: fc' =>
      if decide (TableName tblInfo ≠ tableName) then emit_table tableName fc'
      else (TableName tblInfo, insertStatement tblInfo) :: emit_table tableName fc'
  end.

Fixpoint emit (tableOrdering : list string) (fc : list tableContents)
  : list (string * string) :=
  match tableOrdering with
  | [] => []
  | tableName :: rest => emit_table tableName fc ++ emit rest fc
  end.

(** The extraction of [main] for a schema and a seed: traverse from the
    fresh session, order the tables, emit. *)
Definition extraction (fuel : nat) (resSet : ResultSet)
    (startAtTable identifyingColumnName identifier : string)
  : outcome (list (string * string)) :=
  st ← traverseTables fuel resSet initial_session
         startAtTable identifyingColumnName identifier;
  Done (emit (DetermineInsertTableOrder resSet) (fullContents st)).

End Extraction.

(** ** The canonical textual form of a UUID *)

Definition is_lower_hex (c : ascii) : bool :=
  let n := N_of_ascii c in
  ((48 <=? n)%N && (n <=? 57)%N) || ((97 <=? n)%N && (n <=? 102)%N).

(** 36 characters: hyphens at offsets 8, 13, 18 and 23, lower-case
    hexadecimal digits everywhere else. *)
Fixpoint is_canonical_uuid_from (i : nat) (s : string) : bool :=
  match s with
  | EmptyString => Nat.eqb i 36
  | String c s' =>
      (if Nat.eqb i 8 || Nat.eqb i 13 || Nat.eqb i 18 || Nat.eqb i 23
       then bool_decide (c = "-"%char)
       else is_lower_hex c)
      && is_canonical_uuid_from (S i) s'
  end.

Definition is_canonical_uuid (s : string) : bool := is_canonical_uuid_from 0 s.

(** [rec2] returns whatever [rec1] returns within its call-stack budget. *)
Definition refines (rec1 rec2 : traversal) : Prop :=
  ∀ st fromTable identifyingColumnName identifier,
    rec1 st fromTable identifyingColumnName identifier ≠ OutOfFuel →
    rec2 st fromTable identifyingColumnName identifier
    = rec1 st fromTable identifyingColumnName identifier.

(** ** Scenarios

    Small schemas and databases on which the extraction is evaluated.
    Every key is a text column, so the database compares the value of a
    query with stored strings and answers a query for a value it does
    not store with no row. *)

Definition textColumn (name : string) (position : Z) : InspectedColumn :=
  mkColumn name "text" "" "" position.

Definition foreignKey (name table column : string) (position : Z)
  : InspectedColumn :=
  mkColumn name "text" table column position.

(** [%v] and [%+v] print a string as it is; the scenarios hold no other
    value that reaches them. *)
Definition scenario_Sprintf (v : Value) : string :=
  match v with
  | VString s => s
  | _ => ""
  end.

Definition scenario_Marshal (v : Value) : option string := None.

(** [vehicle.make] references [manufacturer.id]; [vehicle] is registered
    first. *)
Definition vehicle_table : InspectedTable :=
  mkTable "vehicle" [textColumn "id" 1; foreignKey "make" "manufacturer" "id" 2].

Definition manufacturer_table : InspectedTable :=
  mkTable "manufacturer" [textColumn "id" 1].

Definition vehicle_schema : ResultSet :=
  mkResultSet [vehicle_table; manufacturer_table].

(** One vehicle [v1] made by the one manufacturer [m1]. *)
Definition vehicle_conn (sql : string) : QueryResult :=
  if decide (sql = selectQuery "vehicle" "id" "v1")
  then QueryRows [[("id", VString "v1"); ("make", VString "m1")]]
  else if decide (sql = selectQuery "manufacturer" "id" "m1")
  then QueryRows [[("id", VString "m1")]]
  else if decide (sql = selectQuery "vehicle" "make" "m1")
  then QueryRows [[("id", VString "v1"); ("make", VString "m1")]]
  else QueryRows [].

Definition person_table : InspectedTable :=
  mkTable "person" [textColumn "id" 1; textColumn "name" 2].

Definition person_schema : ResultSet := mkResultSet [person_table].

(** A database in which no query matches a row. *)
Definition empty_conn (sql : string) : QueryResult := QueryRows [].

(** A parent-pointer hierarchy: [node.parent] references [node.id] and
    may be null. *)
Definition node_table : InspectedTable :=
  mkTable "node" [textColumn "id" 1; foreignKey "parent" "node" "id" 2].

Definition node_schema : ResultSet := mkResultSet [node_table].

(** The row of the root as the driver returns it, and what [fetch]
    makes of it. *)
Definition root_row : Row := [("id", VString "a"); ("parent", VNil)].

Definition root_fetched : list Value * gmap string Value :=
  ([VString "a"; VNil], <["parent" := VNil]> (<["id" := VString "a"]> ∅)).

(** The single row is the root [a], whose [parent] is null. *)
Definition node_conn (sql : string) : QueryResult :=
  if decide (sql = selectQuery "node" "id" "a")
  then QueryRows [root_row]
  else QueryRows [].

Definition sample_time : Time := mkTime 2021 3 4 5 6 7 123456789.

Definition sample_uuid : list byte :=
  [x00; x01; x02; x03; x04; x05; x06; x07;
   x08; x09; x0a; x0b; x0c; x0d; x0e; xff].

(** ** Building the schema (main, lines 241-284) *)

(** A row of [information_schema.columns], as [getColumns] scans it. *)
Record Column := mkInfoColumn {
  Column_TableCatalog : string;
  Column_TableSchema : string;
  Column_TableName : string;
  Column_ColumnName : string;
  Column_OrdinalPosition : Z;
  Column_ColumnDefault : option string;
  Column_IsNullable : string;
  Column_DataType : string
}.

(** A foreign-key constraint row, as [getSchemaInfo] scans it. *)
Record SchemaInfo := mkSchemaInfo {
  SchemaInfo_TableSchema : string;
  SchemaInfo_ConstraintName : string;
  SchemaInfo_TableName : string;
  SchemaInfo_ColumnName : string;
  SchemaInfo_ForeignTableSchema : string;
  SchemaInfo_ForeignTableName : string;
  SchemaInfo_ForeignColumnName : string
}.

(** Lines 241-247: the table names of the column rows, each once. *)
Fixpoint tableNames_loop (columnData : list Column) (tableNames : list string)
  : list string :=
  match columnData with
  | [] => tableNames
  | col :: columnData' =>
      if negb (contains tableNames (Column_TableName col))
      then tableNames_loop columnData' (tableNames ++ [Column_TableName col])
      else tableNames_loop columnData' tableNames
  end.

(** Lines 259-264: every matching constraint row overwrites the pair
    ([ForeignTableName], [ForeignColumnName]), which starts empty. *)
Fixpoint foreign_loop (schemaData : list SchemaInfo) (tableName columnName : string)
    (foreign : string * string) : string * string :=
  match schemaData with
  | [] => foreign
  | d :: schemaData' =>
      if decide (SchemaInfo_TableName d = tableName ∧
                 SchemaInfo_ColumnName d = columnName)
      then foreign_loop schemaData' tableName columnName
             (SchemaInfo_ForeignTableName d, SchemaInfo_ForeignColumnName d)
      else foreign_loop schemaData' tableName columnName foreign
  end.

(** Lines 266-272: the inspected column of one column row. *)
Definition inspectColumn (schemaData : list SchemaInfo) (tableName : string)
    (colData : Column) : InspectedColumn :=
  let foreign :=
    foreign_loop schemaData tableName (Column_ColumnName colData) ("", "") in
  mkColumn (Column_ColumnName colData) (Column_DataType colData)
    foreign.1 foreign.2 (Column_OrdinalPosition colData).

(** Lines 254-274: the columns of one table. *)
Fixpoint columnInfo_loop (schemaData : list SchemaInfo) (tableName : string)
    (columnData : list Column) (columnInfo : list InspectedColumn)
  : list InspectedColumn :=
  match columnData with
  | [] => columnInfo
  | colData :: columnData' =>
      if decide (Column_TableName colData = tableName)
      then columnInfo_loop schemaData tableName columnData'
             (columnInfo ++ [inspectColumn schemaData tableName colData])
      else columnInfo_loop schemaData tableName columnData' columnInfo
  end.

Section SchemaBuilding.

(** [sort.Slice(columnData, less)] with [less] comparing
    [OrdinalPosition]; it reorders [columnData] in place, and the sort
    is not stable. *)
Variable sort_Slice : list Column → list Column.

(** Lines 251-284: for each table name, collect the columns, sort
    [columnData], register the table. *)
Fixpoint buildSchema_loop (schemaData : list SchemaInfo) (tableNames : list string)
    (columnData : list Column) (fullInfo : ResultSet) : ResultSet * option panic :=
  match tableNames with
  | [] => (fullInfo, None)
  | tableName :: tableNames' =>
      let columnInfo := columnInfo_loop schemaData tableName columnData [] in
      let columnData' := sort_Slice columnData in
      let added := AddTable fullInfo (mkTable tableName columnInfo) in
      match added.2 with
      | Some p => added
      | None => buildSchema_loop schemaData tableNames' columnData' added.1
      end
  end.

(** The [fullInfo] that [main] hands to [traverseTables], or the panic
    of [AddTable]. *)
Definition buildSchema (schemaData : list SchemaInfo) (columnData : list Column)
  : ResultSet * option panic :=
  buildSchema_loop schemaData (tableNames_loop columnData []) columnData
    (mkResultSet []).

End SchemaBuilding.

(** The rows of [information_schema] for the vehicle schema, and a
    stable sort by ordinal position standing for [sort.Slice]. *)
Definition vehicle_columnData : list Column :=
  [mkInfoColumn "db" "public" "vehicle" "make" 2 None "NO" "text";
   mkInfoColumn "db" "public" "manufacturer" "id" 1 None "NO" "text";
   mkInfoColumn "db" "public" "vehicle" "id" 1 None "NO" "text"].

Definition vehicle_schemaData : list SchemaInfo :=
  [mkSchemaInfo "public" "vehicle_make_fkey" "vehicle" "make"
     "public" "manufacturer" "id"].

Definition OrdinalPosition_le (a b : Column) : Prop :=
  Column_OrdinalPosition a ≤ Column_OrdinalPosition b.

#[global] Instance OrdinalPosition_le_dec : RelDecision OrdinalPosition_le :=
  λ a b, decide (Column_OrdinalPosition a ≤ Column_OrdinalPosition b).

Definition sort_by_OrdinalPosition (columnData : list Column) : list Column :=
  merge_sort OrdinalPosition_le columnData.

(** ** Invariants of the session *)

(** Lines 423-427 and 469-470 of [traverseTables]: the entry of
    [fromTable] is found or created, gets the column names of [tabl],
    and gets [rowVal] appended to its rows. *)
Definition recordRow (fc : list tableContents) (fromTable : string)
    (tabl : InspectedTable) (rowVal : string) : list tableContents :=
  let created := getOrCreateTableContents fc fromTable in
  alter (λ c, mkTableContents (TableName c) (InsertColumnNames c)
                (ValuesRows c ++ [rowVal]))
        created.1
        (alter (λ c, mkTableContents (TableName c)
                       (map col_Name (Columns tabl)) (ValuesRows c))
               created.1 created.2).

(** An entry is well formed for a schema when its table is registered,
    its column names are those of the table, and it has a row. *)
Definition entry_ok (resSet : ResultSet) (c : tableContents) : Prop :=
  ∃ tabl,
    index (Tables resSet) (GetTableIndexByName resSet (TableName c)) = Done tabl ∧
    InsertColumnNames c = map col_Name (Columns tabl) ∧
    ValuesRows c ≠ [].

Definition session_ok (resSet : ResultSet) (st : Session) : Prop :=
  NoDup (map TableName (fullContents st)) ∧
  Forall (entry_ok resSet) (fullContents st).

(** [st'] has everything [st] has: the visited identifiers in front, and
    at every index of [st] an entry of the same table whose rows start
    with the rows of [st]. *)
Definition session_extends (st st' : Session) : Prop :=
  visited st `prefix_of` visited st' ∧
  ∀ (i : nat) (c : tableContents),
    fullContents st !! i = Some c →
    ∃ c', fullContents st' !! i = Some c' ∧
          TableName c' = TableName c ∧
          ValuesRows c `prefix_of` ValuesRows c'.

(** ** The rows a traversal records *)

(** The rows recorded by a traversal, in the order of their recording:
    for each activation the table, its descriptor and the values row.
    [replay] records them on top of given table contents. *)
Definition replay (fc : list tableContents)
    (log : list (string * InspectedTable * string)) : list tableContents :=
  foldl (λ fc r, recordRow fc r.1.1 r.1.2 r.2) fc log.

(** A traversal [rec] reads [visited] only: what it records and what it
    marks as visited is the same on top of any table contents. *)
Definition frames (rec : traversal) : Prop :=
  ∀ st fromTable identifyingColumnName identifier st',
    rec st fromTable identifyingColumnName identifier = Done st' →
    ∃ log,
      fullContents st' = replay (fullContents st) log ∧
      ∀ fc, rec (mkSession fc (visited st))
              fromTable identifyingColumnName identifier
            = Done (mkSession (replay fc log) (visited st')).

(** ** Theorems *)

Lemma contains_elem_of (s : list string) (e : string) :
  contains s e = true ↔ e ∈ s.
Proof.
  induction s as [|a s IH]; simpl.
  - split; [discriminate | by intros ?%elem_of_nil].
  - case_decide as Ha.
    + subst a. split; [intros _; left | done].
    + rewrite IH. split; [by right | ].
      intros [?|?]%elem_of_cons; [congruence | done].
Qed.

Lemma allDepsAvailable_loop_subset (pointsTo deps : list string) :
  deps ⊆ pointsTo → allDepsAvailable_loop pointsTo deps = true.
Proof.
  induction deps as [|dep deps IH]; simpl; [done|].
  intros Hsub.
  assert (contains pointsTo dep = true) as ->.
  { apply contains_elem_of, Hsub. left. }
  simpl. apply IH. intros x Hx. apply Hsub. by right.
Qed.

Lemma DetermineInsertTableOrder_loop_spec (ts : list InspectedTable)
    (res : list string) :
  DetermineInsertTableOrder_loop ts res = res ++ map tbl_Name ts.
Proof.
  revert res. induction ts as [|t ts IH]; intros res; simpl.
  - by rewrite app_nil_r.
  - rewrite allDepsAvailable_loop_subset by done.
    destruct (_ && _); rewrite IH, <- app_assoc; done.
Qed.

(** C10. For every [ResultSet], [DetermineInsertTableOrder] returns the
    names of all registered tables, one for each table and in
    registration order, whatever their foreign keys are. *)
Theorem DetermineInsertTableOrder_registration_order (rs : ResultSet) :
  DetermineInsertTableOrder rs = map tbl_Name (Tables rs).
Proof.
  unfold DetermineInsertTableOrder.
  by rewrite DetermineInsertTableOrder_loop_spec.
Qed.

Lemma AddTable_scan_true (ts : list InspectedTable) (name : string) :
  AddTable_scan ts name = true ↔ ∃ t, t ∈ ts ∧ tbl_Name t = name.
Proof.
  induction ts as [|t ts IH]; simpl.
  - split; [discriminate | intros (t & []%elem_of_nil & _)].
  - case_decide as Ht.
    + split; [intros _; exists t; split; [left | done] | done].
    + rewrite IH. split.
      * intros (t' & Hin & Hn). exists t'. split; [by right | done].
      * intros (t' & [->|Hin]%elem_of_cons & Hn); [congruence | eauto].
Qed.

(** C4. Registering a table whose name equals that of an already
    registered table fails with the duplicate-table panic, and the
    [ResultSet] is the same after the failed call as before it. *)
Theorem AddTable_duplicate_fails (rs : ResultSet) (table registered : InspectedTable) :
  registered ∈ Tables rs →
  tbl_Name registered = tbl_Name table →
  AddTable rs table =
    (rs, Some (PanicMsg "Cannot add multiple tables with the same name")).
Proof.
  intros Hin Hname. unfold AddTable.
  assert (AddTable_scan (Tables rs) (tbl_Name table) = true) as ->; [|done].
  apply AddTable_scan_true. eauto.
Qed.

(** ** The extraction on the scenarios *)

(** C1. The claim asks that a table referenced through a foreign key
    comes before the table that references it, in the ordering and in
    the emitted statements.  On the vehicle schema the code orders and
    emits [vehicle], which references [manufacturer], first. *)
Theorem vehicle_emitted_before_manufacturer (k : nat) :
  ListTablesPointedTo vehicle_table = ["manufacturer"] ∧
  DetermineInsertTableOrder vehicle_schema = ["vehicle"; "manufacturer"] ∧
  (map fst <$> extraction vehicle_conn scenario_Sprintf scenario_Sprintf
                 scenario_Marshal (3 + k) vehicle_schema "vehicle" "id" "v1")
    = Done ["vehicle"; "manufacturer"].
Proof. repeat split; vm_compute; reflexivity. Qed.

(** C3. The claim asks for at most one extracted row for each table
    row.  From the seed [vehicle.id = v1] the traversal reaches
    [manufacturer] through [make], and the forward loop, which does not
    consult [visited], enters [vehicle] again through [make = m1]: the
    row of [v1] is accumulated twice. *)
Theorem vehicle_row_accumulated_twice (k : nat) :
  traverseTables vehicle_conn scenario_Sprintf scenario_Sprintf scenario_Marshal
    (3 + k) vehicle_schema initial_session "vehicle" "id" "v1"
  = Done (mkSession
            [mkTableContents "vehicle" ["id"; "make"] ["'v1', 'm1'"; "'v1', 'm1'"];
             mkTableContents "manufacturer" ["id"] ["'m1'"]]
            ["m1"]).
Proof. vm_compute. reflexivity. Qed.

(** C5. The claim asks for an empty statement sequence when the seed
    matches no row.  The code accumulates a row of NULL literals for the
    seed table and emits its INSERT statement; it also goes on into the
    tables that reference the seed table, with the marker of a nil value
    as the identifier. *)
Theorem absent_seed_emits_null_row (identifier : string) (k : nat) :
  extraction empty_conn scenario_Sprintf scenario_Sprintf scenario_Marshal
    (1 + k) person_schema "person" "id" identifier
  = Done [("person",
           insertStatement (mkTableContents "person" ["id"; "name"] ["NULL, NULL"]))]
  ∧
  traverseTables vehicle_conn scenario_Sprintf scenario_Sprintf scenario_Marshal
    (2 + k) vehicle_schema initial_session "manufacturer" "id" "nobody"
  = Done (mkSession
            [mkTableContents "manufacturer" ["id"] ["NULL"];
             mkTableContents "vehicle" ["id"; "make"] ["NULL, NULL"]]
            []).
Proof. split; vm_compute; reflexivity. Qed.

(** Once the traversal asks [node] for the children of a row that was
    not found, every activation starts the next one. *)
Lemma node_body_absent_parent (rec : traversal) (st : Session) (identifier : string) :
  (∀ st', rec st' "node" "parent" nil_marker = OutOfFuel) →
  traverseTables_body node_conn scenario_Sprintf scenario_Sprintf scenario_Marshal
    rec node_schema st "node" "parent" identifier = OutOfFuel.
Proof.
  intros Hrec. vm_compute. vm_compute in Hrec. rewrite Hrec. reflexivity.
Qed.

Lemma node_absent_parent_diverges (fuel : nat) (st : Session) (identifier : string) :
  traverseTables node_conn scenario_Sprintf scenario_Sprintf scenario_Marshal
    fuel node_schema st "node" "parent" identifier = OutOfFuel.
Proof.
  destruct fuel as [|fuel]; [reflexivity|].
  apply node_body_absent_parent. clear st identifier.
  induction fuel as [|fuel IH]; intros st; [reflexivity|].
  by apply node_body_absent_parent.
Qed.

Lemma node_body_root (rec : traversal) (st : Session) :
  (∀ st', rec st' "node" "parent" "a" = OutOfFuel) →
  traverseTables_body node_conn scenario_Sprintf scenario_Sprintf scenario_Marshal
    rec node_schema st "node" "id" "a" = OutOfFuel.
Proof.
  intros Hrec. vm_compute. vm_compute in Hrec. rewrite Hrec. reflexivity.
Qed.

(** C2. The claim asks that the traversal terminates, also on a table
    that references itself.  On the parent-pointer hierarchy with the
    single root [a], the forward loop enters [node] again from every
    activation, found row or not, so no call-stack budget is enough for
    the traversal from the seed [node.id = a] to return. *)
Theorem self_reference_never_returns (fuel : nat) :
  traverseTables node_conn scenario_Sprintf scenario_Sprintf scenario_Marshal
    fuel node_schema initial_session "node" "id" "a" = OutOfFuel
  ∧
  extraction node_conn scenario_Sprintf scenario_Sprintf scenario_Marshal
    fuel node_schema "node" "id" "a" = OutOfFuel.
Proof.
  assert (traverseTables node_conn scenario_Sprintf scenario_Sprintf
            scenario_Marshal fuel node_schema initial_session "node" "id" "a"
          = OutOfFuel) as H.
  { destruct fuel as [|fuel]; [reflexivity|].
    apply node_body_root. intros st'. apply node_absent_parent_diverges. }
  split; [exact H|]. unfold extraction. by rewrite H.
Qed.

(** ** Properties of the traversal for every connection *)

Section Properties.

Variable conn_Query : string → QueryResult.
Variable Sprintf_v : Value → string.
Variable Sprintf_plus_v : Value → string.
Variable json_Marshal : Value → option string.

Lemma bind_Done_inv {A B} (c : outcome A) (k : A → outcome B) (b : B) :
  c ≫= k = Done b → ∃ a, c = Done a ∧ k a = Done b.
Proof. destruct c; cbn; [eauto | discriminate | discriminate]. Qed.

Lemma forward_refines (rec1 rec2 : traversal) (fromTable : string)
    (resultData : gmap string Value) (ts : list InspectedTable) (st : Session) :
  refines rec1 rec2 →
  traverseTables_forward Sprintf_v rec1 fromTable resultData ts st ≠ OutOfFuel →
  traverseTables_forward Sprintf_v rec2 fromTable resultData ts st
  = traverseTables_forward Sprintf_v rec1 fromTable resultData ts st.
Proof.
  intros Href. revert st.
  induction ts as [|t ts IH]; intros st; simpl; [done|].
  destruct (HasPointerToTable t fromTable) as [col|]; [|apply IH].
  destruct (AsStringFromValue _ _ _) as [ident| |]; cbn; [|done|done].
  destruct (rec1 st (tbl_Name t) (col_Name col) ident) as [st'| |] eqn:Hrec;
    cbn; intros Hfuel; [| |done].
  all: rewrite Href by (by rewrite Hrec); rewrite Hrec; cbn.
  - by apply IH.
  - done.
Qed.

Lemma backward_refines (rec1 rec2 : traversal)
    (resultData : gmap string Value) (cols : list InspectedColumn) (st : Session) :
  refines rec1 rec2 →
  traverseTables_backward Sprintf_v rec1 resultData cols st ≠ OutOfFuel →
  traverseTables_backward Sprintf_v rec2 resultData cols st
  = traverseTables_backward Sprintf_v rec1 resultData cols st.
Proof.
  intros Href. revert st.
  induction cols as [|col cols IH]; intros st;
    cbn [traverseTables_backward]; [done|].
  case_decide; [|apply IH].
  destruct (resultData_get resultData (col_Name col)) eqn:Hdata;
    cbv beta iota; try apply IH.
  all: destruct (AsStringFromValue _ _ _) as [ident| |]; cbn; [|done|done].
  all: destruct (contains (visited st) ident); [apply IH|].
  all: destruct (rec1 _ (PointsToTable col) (PointsToColumn col) ident)
         as [st'| |] eqn:Hrec;
       cbn; intros Hfuel; [| |done].
  all: rewrite Href by (by rewrite Hrec); rewrite Hrec; cbn.
  all: done || by apply IH.
Qed.

Lemma body_refines (rec1 rec2 : traversal) (resSet : ResultSet) :
  refines rec1 rec2 →
  refines
    (traverseTables_body conn_Query Sprintf_v Sprintf_plus_v json_Marshal rec1 resSet)
    (traverseTables_body conn_Query Sprintf_v Sprintf_plus_v json_Marshal rec2 resSet).
Proof.
  intros Href st fromTable identifyingColumnName identifier.
  unfold traverseTables_body.
  destruct (conn_Query _) as [|rows]; [done|].
  destruct (index _ _) as [tabl| |]; cbn; [|done|done].
  destruct (fetch tabl rows) as [fetched| |]; cbn; [|done|done].
  destruct (rowStringVals_loop _ _ _ _ _) as [rowStringVals| |]; cbn; [|done|done].
  match goal with
  | |- context [traverseTables_forward _ rec1 ?f ?d ?ts ?s] =>
      destruct (traverseTables_forward Sprintf_v rec1 f d ts s)
        as [st1| |] eqn:Hfwd
  end; cbn; intros Hfuel.
  - rewrite (forward_refines rec1 rec2) by (done || by rewrite Hfwd).
    rewrite Hfwd. cbn. by apply (backward_refines rec1 rec2).
  - rewrite (forward_refines rec1 rec2) by (done || by rewrite Hfwd).
    by rewrite Hfwd.
  - done.
Qed.

(** A larger call-stack budget does not change a result. *)
Lemma traverseTables_fuel_mono (n m : nat) (resSet : ResultSet) :
  (n ≤ m)%nat →
  refines
    (traverseTables conn_Query Sprintf_v Sprintf_plus_v json_Marshal n resSet)
    (traverseTables conn_Query Sprintf_v Sprintf_plus_v json_Marshal m resSet).
Proof.
  revert m. induction n as [|n IH]; intros m Hle; [by intros ????|].
  destruct m as [|m]; [lia|]. simpl.
  apply body_refines, IH. lia.
Qed.

Lemma extraction_fuel_mono (n m : nat) (resSet : ResultSet)
    (startAtTable identifyingColumnName identifier : string) :
  (n ≤ m)%nat →
  extraction conn_Query Sprintf_v Sprintf_plus_v json_Marshal n resSet
    startAtTable identifyingColumnName identifier ≠ OutOfFuel →
  extraction conn_Query Sprintf_v Sprintf_plus_v json_Marshal m resSet
    startAtTable identifyingColumnName identifier
  = extraction conn_Query Sprintf_v Sprintf_plus_v json_Marshal n resSet
      startAtTable identifyingColumnName identifier.
Proof.
  intros Hle. unfold extraction. intros Hfuel.
  rewrite (traverseTables_fuel_mono n m resSet Hle); [done|].
  intros Hout. by rewrite Hout in Hfuel.
Qed.

(** The outcome of an extraction that returns does not depend on the
    call-stack budget it was given. *)
Lemma extraction_fuel_independent (n1 n2 : nat) (resSet : ResultSet)
    (startAtTable identifyingColumnName identifier : string) :
  extraction conn_Query Sprintf_v Sprintf_plus_v json_Marshal n1 resSet
    startAtTable identifyingColumnName identifier ≠ OutOfFuel →
  extraction conn_Query Sprintf_v Sprintf_plus_v json_Marshal n2 resSet
    startAtTable identifyingColumnName identifier ≠ OutOfFuel →
  extraction conn_Query Sprintf_v Sprintf_plus_v json_Marshal n1 resSet
    startAtTable identifyingColumnName identifier
  = extraction conn_Query Sprintf_v Sprintf_plus_v json_Marshal n2 resSet
      startAtTable identifyingColumnName identifier.
Proof.
  intros H1 H2. destruct (Nat.le_ge_cases n1 n2) as [Hle|Hle].
  - symmetry. by apply extraction_fuel_mono.
  - by apply extraction_fuel_mono.
Qed.

Lemma rowStringVals_loop_app (cols : list InspectedColumn)
    (ifVals : list Value) (acc strs : list string) :
  rowStringVals_loop Sprintf_plus_v json_Marshal cols ifVals acc = Done strs →
  ∃ rest, strs = acc ++ rest.
Proof.
  revert cols acc. induction ifVals as [|e ifVals IH]; intros cols acc; simpl.
  - intros Hdone. exists []. rewrite app_nil_r. congruence.
  - destruct cols as [|col cols]; [done|].
    intros (a & _ & Hloop)%bind_Done_inv.
    apply IH in Hloop as [rest ->]. exists (a :: rest).
    by rewrite <- app_assoc.
Qed.

Lemma rowStringVals_loop_null (cols : list InspectedColumn)
    (ifVals : list Value) (acc strs : list string) (i : nat) :
  rowStringVals_loop Sprintf_plus_v json_Marshal cols ifVals acc = Done strs →
  ifVals !! i = Some VNil →
  strs !! (length acc + i)%nat = Some "NULL".
Proof.
  revert cols acc i. induction ifVals as [|e ifVals IH]; intros cols acc i; simpl.
  - by intros _ ?.
  - destruct cols as [|col cols]; [done|].
    intros (a & Hlit & Hloop)%bind_Done_inv Hi.
    destruct i as [|i]; simpl in Hi.
    + injection Hi as ->. cbn in Hlit. injection Hlit as <-.
      apply rowStringVals_loop_app in Hloop as [rest ->].
      rewrite Nat.add_0_r, <- app_assoc.
      by rewrite lookup_app_r, Nat.sub_diag by lia.
    + specialize (IH _ _ _ Hloop Hi).
      rewrite length_app in IH. simpl in IH.
      by replace (length acc + S i)%nat with (length acc + 1 + i)%nat by lia.
Qed.

Lemma resultData_absent (row : Row) (m : gmap string Value) (name : string) :
  name ∉ row.*1 →
  foldl (λ m field, <[field.1 := field.2]> m) m row !! name = m !! name.
Proof.
  revert m. induction row as [|[k w] row IH]; intros m; simpl; [done|].
  intros [Hne Hnotin]%not_elem_of_cons.
  rewrite IH by done. by rewrite lookup_insert_ne.
Qed.

Lemma resultData_field (row : Row) (m : gmap string Value)
    (name : string) (v : Value) :
  NoDup row.*1 → (name, v) ∈ row →
  foldl (λ m field, <[field.1 := field.2]> m) m row !! name = Some v.
Proof.
  revert m. induction row as [|[k w] row IH]; intros m; simpl.
  - by intros _ ?%elem_of_nil.
  - intros [Hnotin Hnodup]%NoDup_cons [Heq|Hin]%elem_of_cons.
    + injection Heq as -> ->.
      rewrite resultData_absent by done. by rewrite lookup_insert_eq.
    + by apply IH.
Qed.

Lemma fetch_row (tabl : InspectedTable) (row : Row) (rows : list Row)
    (fetched : list Value * gmap string Value) :
  fetch tabl (row :: rows) = Done fetched →
  fetched = (row.*2, foldl (λ m field, <[field.1 := field.2]> m) ∅ row).
Proof.
  unfold fetch. repeat case_decide; congruence.
Qed.

(** C6. In a fetched row, a column whose database value is null is
    written as the bare keyword NULL, whatever its declared type is
    (the null test comes before the switch on the type), and the loop
    over the foreign-key columns passes over it without following it. *)
Theorem null_column_is_NULL_and_not_followed
    (tabl : InspectedTable) (row : Row) (rows : list Row)
    (fetched : list Value * gmap string Value)
    (i : nat) (field typ : string) (rowStringVals : list string)
    (rec : traversal) (col : InspectedColumn) (rest : list InspectedColumn)
    (st : Session) :
  fetch tabl (row :: rows) = Done fetched →
  NoDup row.*1 →
  row !! i = Some (field, VNil) →
  rowStringVals_loop Sprintf_plus_v json_Marshal (Columns tabl) fetched.1 []
  = Done rowStringVals →
  col_Name col = field →
  literal Sprintf_plus_v json_Marshal typ VNil = Done "NULL" ∧
  rowStringVals !! i = Some "NULL" ∧
  traverseTables_backward Sprintf_v rec fetched.2 (col :: rest) st
  = traverseTables_backward Sprintf_v rec fetched.2 rest st.
Proof.
  intros ->%fetch_row Hnodup Hi Hloop Hname. simpl in *.
  split; [done|]. split.
  - apply (rowStringVals_loop_null _ _ _ _ i Hloop).
    by rewrite list_lookup_fmap, Hi.
  - cbn [traverseTables_backward]. unfold resultData_get.
    rewrite Hname, (resultData_field row ∅ field VNil) by
      (done || by eapply list_elem_of_lookup_2).
    by case_decide.
Qed.

End Properties.

Lemma null_column_is_NULL_and_not_followed_witness :
  literal scenario_Sprintf scenario_Marshal "uuid" VNil = Done "NULL" ∧
  ["'a'"; "NULL"] !! 1%nat = Some "NULL" ∧
  traverseTables_backward scenario_Sprintf (λ _ _ _ _, OutOfFuel)
    root_fetched.2 [foreignKey "parent" "node" "id" 2] initial_session
  = traverseTables_backward scenario_Sprintf (λ _ _ _ _, OutOfFuel)
      root_fetched.2 [] initial_session.
Proof.
  apply (null_column_is_NULL_and_not_followed
           scenario_Sprintf scenario_Sprintf scenario_Marshal
           node_table root_row [] root_fetched 1%nat "parent").
  - reflexivity.
  - compute_done.
  - reflexivity.
  - vm_compute. reflexivity.
  - reflexivity.
Defined.

(** [main] traverses once, from the session in which the process starts.
    The package-level variables outlive a call of [traverseTables]: a
    second call in the same process accumulates on top of the first. *)
Remark traverseTables_accumulates_across_calls :
  (st1 ← traverseTables vehicle_conn scenario_Sprintf scenario_Sprintf
           scenario_Marshal 3 vehicle_schema initial_session "vehicle" "id" "v1";
   traverseTables vehicle_conn scenario_Sprintf scenario_Sprintf
     scenario_Marshal 3 vehicle_schema st1 "vehicle" "id" "v1")
  = Done (mkSession
            [mkTableContents "vehicle" ["id"; "make"]
               ["'v1', 'm1'"; "'v1', 'm1'"; "'v1', 'm1'"];
             mkTableContents "manufacturer" ["id"] ["'m1'"]]
            ["m1"]).
Proof. vm_compute. reflexivity. Qed.

Lemma AddTable_duplicate_fails_witness :
  AddTable person_schema (mkTable "person" [textColumn "id" 1]) =
    (person_schema, Some (PanicMsg "Cannot add multiple tables with the same name")).
Proof.
  apply (AddTable_duplicate_fails person_schema _ person_table).
  - vm_compute. left.
  - reflexivity.
Defined.

(** ** Timestamp literals *)

Lemma digits_below_10000 (x : Z) :
  0 ≤ x < 10000 →
  digits x =
    if x <? 10 then [x]
    else if x <? 100 then [x / 10; x mod 10]
    else if x <? 1000 then [x / 100; x / 10 mod 10; x mod 10]
    else [x / 1000; x / 100 mod 10; x / 10 mod 10; x mod 10].
Proof.
  intros Hx. unfold digits.
  destruct (Z.ltb_spec x 10) as [Hlt|Hge]; [by simpl; rewrite (proj2 (Z.ltb_lt _ _) Hlt)|].
  assert (3 ≤ Z.log2 x) as Hlog.
  { change 3 with (Z.log2 8). apply Z.log2_le_mono. lia. }
  destruct (Z.to_nat (Z.log2 x)) as [|[|[|n]]] eqn:Hn; try lia.
  cbn [digits_loop].
  rewrite (proj2 (Z.ltb_ge _ _) Hge).
  assert (x / 10 / 10 = x / 100) as E2 by (rewrite Z.div_div by lia; done).
  assert (x / 100 / 10 = x / 1000) as E3 by (rewrite Z.div_div by lia; done).
  rewrite E2, E3.
  destruct (Z.ltb_spec x 100), (Z.ltb_spec x 1000),
    (Z.ltb_spec (x / 10) 10), (Z.ltb_spec (x / 100) 10);
    try done; try (exfalso; Z.div_mod_to_equations; lia).
  assert ((x / 1000 <? 10) = true) as ->; [|done].
  apply Z.ltb_lt. Z.div_mod_to_equations. lia.
Qed.

Lemma appendInt_2 (x : Z) :
  0 ≤ x < 100 → appendInt x 2 = digitsString [x / 10; x mod 10].
Proof.
  intros Hx. unfold appendInt.
  rewrite Z.abs_eq, digits_below_10000 by lia.
  assert ((x <? 0) = false) as -> by lia.
  assert ((x <? 100) = true) as -> by lia.
  destruct (Z.ltb_spec x 10) as [Hlt|Hge]; [|done].
  cbn -[digitsString Z.div Z.modulo].
  by rewrite Z.div_small, Z.mod_small by lia.
Qed.

Lemma appendInt_4 (x : Z) :
  0 ≤ x < 10000 →
  appendInt x 4 = digitsString [x / 1000; x / 100 mod 10; x / 10 mod 10; x mod 10].
Proof.
  intros Hx. unfold appendInt.
  rewrite Z.abs_eq, digits_below_10000 by lia.
  assert ((x <? 0) = false) as -> by lia.
  destruct (Z.ltb_spec x 10), (Z.ltb_spec x 100), (Z.ltb_spec x 1000);
    try lia; cbn -[digitsString Z.div Z.modulo];
    apply (f_equal digitsString); repeat f_equal;
    Z.div_mod_to_equations; lia.
Qed.

Lemma formatNano_3 (nanosec : Z) :
  0 ≤ nanosec ≤ 999999999 →
  formatNano nanosec 3 =
    "." +:+ digitsString [nanosec / 1000000 / 100;
                          nanosec / 1000000 / 10 mod 10;
                          nanosec / 1000000 mod 10].
Proof.
  intros Hn. unfold formatNano.
  cbn -[digitsString Z.div Z.modulo].
  f_equal. apply (f_equal digitsString).
  f_equal; [|f_equal; [|f_equal]]; Z.div_mod_to_equations; lia.
Qed.

Lemma Format_spec_timestamp (j : Time) :
  valid_Time j →
  Format_2006_01_02T15_04_05_000Z j = spec_timestamp j +:+ "Z".
Proof.
  intros (Hy & Hmo & Hd & Hh & Hmi & Hs & Hn).
  unfold Format_2006_01_02T15_04_05_000Z, spec_timestamp.
  rewrite appendInt_4, !appendInt_2, formatNano_3 by lia.
  reflexivity.
Qed.

(** ** UUID values *)

Lemma hexDigit_is_lower_hex (b : byte) :
  is_lower_hex (hexDigit (Byte.to_N b / 16)) = true ∧
  is_lower_hex (hexDigit (Byte.to_N b mod 16)) = true.
Proof. destruct b; split; reflexivity. Qed.

Lemma fillRegBytes_16 (d : list byte) :
  length d = 16%nat → fillRegBytes d = Done d.
Proof.
  intros Hlen. unfold fillRegBytes. rewrite Hlen.
  rewrite decide_False by lia. simpl. by rewrite app_nil_r.
Qed.

Lemma uuid_String_canonical (u : list byte) :
  length u = 16%nat → is_canonical_uuid (uuid_String u) = true.
Proof.
  intros Hlen.
  do 17 (destruct u as [|? u]; try discriminate Hlen). clear Hlen.
  cbv -[is_lower_hex hexDigit Byte.to_N N.div N.modulo].
  repeat match goal with
         | |- context [is_lower_hex (hexDigit (N.div (Byte.to_N ?b) _))] =>
             rewrite (proj1 (hexDigit_is_lower_hex b))
         | |- context [is_lower_hex (hexDigit (N.modulo (Byte.to_N ?b) _))] =>
             rewrite (proj2 (hexDigit_is_lower_hex b))
         end.
  reflexivity.
Qed.

Section Literals.

Variable Sprintf_v : Value → string.
Variable Sprintf_plus_v : Value → string.
Variable json_Marshal : Value → option string.

Lemma literal_timestamp (typ : string) (j : Time) :
  typ ∈ ["timestamp"; "timestamp with time zone"; "timestamp without time zone"] →
  literal Sprintf_plus_v json_Marshal typ (VTime j)
  = Done ("'" +:+ Format_2006_01_02T15_04_05_000Z j +:+ "'").
Proof.
  intros Htyp. unfold literal.
  case_decide as Huuid.
  - subst typ. apply contains_elem_of in Htyp. vm_compute in Htyp. done.
  - apply contains_elem_of in Htyp. by rewrite Htyp.
Qed.

(** C8, as the code has it.  For a timestamp value with a four-digit
    year in a column of declared type timestamp, timestamp with time
    zone or timestamp without time zone, the literal is the value
    formatted as YYYY-MM-DDTHH:MM:SS.mmm (milliseconds, truncated),
    followed by the letter Z, in single quotes. *)
Theorem timestamp_literal_with_Z (typ : string) (j : Time) :
  typ ∈ ["timestamp"; "timestamp with time zone"; "timestamp without time zone"] →
  valid_Time j →
  literal Sprintf_plus_v json_Marshal typ (VTime j)
  = Done ("'" +:+ spec_timestamp j +:+ "Z" +:+ "'")
  ∧ String.length ("'" +:+ spec_timestamp j +:+ "Z" +:+ "'") = 26%nat.
Proof.
  intros Htyp Hvalid. split.
  - rewrite literal_timestamp, Format_spec_timestamp by done.
    reflexivity.
  - reflexivity.
Qed.


End Literals.

Lemma timestamp_literal_with_Z_witness :
  literal scenario_Sprintf scenario_Marshal "timestamp with time zone" (VTime sample_time)
  = Done ("'" +:+ spec_timestamp sample_time +:+ "Z" +:+ "'")
  ∧ String.length ("'" +:+ spec_timestamp sample_time +:+ "Z" +:+ "'") = 26%nat.
Proof.
  apply timestamp_literal_with_Z.
  - right. left.
  - unfold valid_Time, sample_time. simpl. lia.
Defined.

(** C8, as it is stated, fails: the literal of a timestamp ends with the
    zone designator Z of the layout. *)
Lemma timestamp_literal_ends_with_Z :
  literal scenario_Sprintf scenario_Marshal "timestamp" (VTime sample_time)
  = Done "'2021-03-04T05:06:07.123Z'"
  ∧ spec_timestamp sample_time = "2021-03-04T05:06:07.123"
  ∧ literal scenario_Sprintf scenario_Marshal "timestamp" (VTime sample_time)
    ≠ Done ("'" +:+ spec_timestamp sample_time +:+ "'").
Proof. repeat split; vm_compute; done. Qed.


(** ** The schema model: lookups and registration *)

Lemma GetTableIndexByName_loop_absent (ts : list InspectedTable) (name : string) (idx : Z) :
  name ∉ map tbl_Name ts → GetTableIndexByName_loop ts name idx = -1.
Proof.
  revert idx. induction ts as [|t ts IH]; intros idx; simpl; [done|].
  intros [Hne Hnotin]%not_elem_of_cons.
  rewrite decide_False by done. by apply IH.
Qed.

Lemma GetTableIndexByName_loop_first (ts : list InspectedTable) (name : string) (idx : Z) :
  name ∈ map tbl_Name ts →
  ∃ (i : nat) (t : InspectedTable),
    GetTableIndexByName_loop ts name idx = idx + Z.of_nat i ∧
    ts !! i = Some t ∧ tbl_Name t = name ∧
    ∀ (j : nat) (t' : InspectedTable),
      (j < i)%nat → ts !! j = Some t' → tbl_Name t' ≠ name.
Proof.
  revert idx. induction ts as [|t ts IH]; intros idx; simpl.
  - by intros ?%elem_of_nil.
  - intros Hin. case_decide as Hname.
    + exists 0%nat, t. split; [lia|]. split; [done|]. split; [done|].
      intros j t' Hj. exfalso. lia.
    + apply elem_of_cons in Hin as [Heq|Hin]; [congruence|].
      destruct (IH (idx + 1) Hin) as (i & t0 & Hidx & Hlook & Hn & Hfirst).
      exists (S i), t0. split; [lia|]. split; [done|]. split; [done|].
      intros [|j] t' Hj Hlook'; simpl in Hlook'; [congruence|].
      apply (Hfirst j); [lia|done].
Qed.

Lemma index_of_nat {A} (s : list A) (i : nat) (a : A) :
  s !! i = Some a → index s (Z.of_nat i) = Done a.
Proof.
  intros Hlook. unfold index.
  assert ((Z.of_nat i <? 0) = false) as -> by (apply Z.ltb_ge; lia).
  by rewrite Nat2Z.id, Hlook.
Qed.

(** X1. A name that no registered table carries has index [-1], and
    only such a name has; indexing [Tables] with the index of a name
    panics exactly for those names. *)
Theorem GetTableIndexByName_unregistered (rs : ResultSet) (name : string) :
  (GetTableIndexByName rs name = -1 ↔ name ∉ map tbl_Name (Tables rs)) ∧
  (index (Tables rs) (GetTableIndexByName rs name) = Panicked PanicIndexOutOfRange
   ↔ name ∉ map tbl_Name (Tables rs)).
Proof.
  unfold GetTableIndexByName.
  destruct (decide (name ∈ map tbl_Name (Tables rs))) as [Hin|Hnotin].
  - destruct (GetTableIndexByName_loop_first _ _ 0 Hin)
      as (i & t & -> & Hlook & _ & _).
    rewrite Z.add_0_l, (index_of_nat _ _ _ Hlook).
    split; split; (done || lia).
  - rewrite GetTableIndexByName_loop_absent by done.
    split; split; done.
Qed.

(** X2. For a registered name, [GetTableIndexByName] returns the
    position of the first table with that name, and indexing [Tables]
    with it yields that table. *)
Theorem GetTableIndexByName_first (rs : ResultSet) (name : string) :
  name ∈ map tbl_Name (Tables rs) →
  ∃ (i : nat) (t : InspectedTable),
    GetTableIndexByName rs name = Z.of_nat i ∧
    Tables rs !! i = Some t ∧ tbl_Name t = name ∧
    (∀ (j : nat) (t' : InspectedTable),
       (j < i)%nat → Tables rs !! j = Some t' → tbl_Name t' ≠ name) ∧
    index (Tables rs) (GetTableIndexByName rs name) = Done t.
Proof.
  intros Hin. unfold GetTableIndexByName.
  destruct (GetTableIndexByName_loop_first _ _ 0 Hin)
    as (i & t & -> & Hlook & Hname & Hfirst).
  exists i, t. rewrite Z.add_0_l.
  split; [done|]. split; [done|]. split; [done|]. split; [done|].
  by apply index_of_nat.
Qed.

Lemma GetTableIndexByName_first_witness :
  ∃ (i : nat) (t : InspectedTable),
    GetTableIndexByName vehicle_schema "manufacturer" = Z.of_nat i ∧
    Tables vehicle_schema !! i = Some t ∧ tbl_Name t = "manufacturer" ∧
    (∀ (j : nat) (t' : InspectedTable),
       (j < i)%nat → Tables vehicle_schema !! j = Some t' →
       tbl_Name t' ≠ "manufacturer") ∧
    index (Tables vehicle_schema)
      (GetTableIndexByName vehicle_schema "manufacturer") = Done t.
Proof.
  apply GetTableIndexByName_first. vm_compute. right. left.
Defined.

Lemma AddTable_scan_elem_of (ts : list InspectedTable) (name : string) :
  AddTable_scan ts name = true ↔ name ∈ map tbl_Name ts.
Proof.
  induction ts as [|t ts IH]; simpl.
  - split; [discriminate | by intros ?%elem_of_nil].
  - case_decide as Ht.
    + subst name. split; [intros _; left | done].
    + rewrite IH. split; [by right|].
      intros [?|?]%elem_of_cons; [congruence | done].
Qed.

Lemma GetTableIndexByName_loop_app_l (ts ts' : list InspectedTable)
    (name : string) (idx : Z) :
  name ∈ map tbl_Name ts →
  GetTableIndexByName_loop (ts ++ ts') name idx = GetTableIndexByName_loop ts name idx.
Proof.
  revert idx. induction ts as [|t ts IH]; intros idx; simpl.
  - by intros ?%elem_of_nil.
  - intros Hin. case_decide as Hname; [done|].
    apply elem_of_cons in Hin as [Heq|Hin]; [congruence|]. by apply IH.
Qed.

Lemma GetTableIndexByName_loop_app_r (ts : list InspectedTable)
    (table : InspectedTable) (idx : Z) :
  tbl_Name table ∉ map tbl_Name ts →
  GetTableIndexByName_loop (ts ++ [table]) (tbl_Name table) idx
  = idx + Z.of_nat (length ts).
Proof.
  revert idx. induction ts as [|t ts IH]; intros idx; simpl.
  - intros _. rewrite decide_True by done. lia.
  - intros [Hne Hnotin]%not_elem_of_cons.
    rewrite decide_False by done. rewrite IH by done. lia.
Qed.

(** X3. Registering a table under a name that is not yet registered
    succeeds and appends it: looking the new name up afterwards yields
    the table just registered, and the index of every name registered
    before is what it was. *)
Theorem AddTable_fresh_lookup (rs : ResultSet) (table : InspectedTable) :
  tbl_Name table ∉ map tbl_Name (Tables rs) →
  AddTable rs table = (mkResultSet (Tables rs ++ [table]), None) ∧
  index (Tables (AddTable rs table).1)
    (GetTableIndexByName (AddTable rs table).1 (tbl_Name table)) = Done table ∧
  ∀ name, name ∈ map tbl_Name (Tables rs) →
    GetTableIndexByName (AddTable rs table).1 name = GetTableIndexByName rs name.
Proof.
  intros Hfresh.
  assert (AddTable rs table = (mkResultSet (Tables rs ++ [table]), None)) as ->.
  { unfold AddTable.
    destruct (AddTable_scan _ _) eqn:Hscan; [|done].
    by apply AddTable_scan_elem_of in Hscan. }
  split; [done|]. simpl. unfold GetTableIndexByName. simpl. split.
  - rewrite GetTableIndexByName_loop_app_r by done. rewrite Z.add_0_l.
    apply index_of_nat. by rewrite lookup_app_r, Nat.sub_diag by lia.
  - intros name Hin. by apply GetTableIndexByName_loop_app_l.
Qed.

Lemma AddTable_fresh_lookup_witness :
  AddTable person_schema manufacturer_table
  = (mkResultSet (Tables person_schema ++ [manufacturer_table]), None) ∧
  index (Tables (AddTable person_schema manufacturer_table).1)
    (GetTableIndexByName (AddTable person_schema manufacturer_table).1
       (tbl_Name manufacturer_table)) = Done manufacturer_table ∧
  ∀ name, name ∈ map tbl_Name (Tables person_schema) →
    GetTableIndexByName (AddTable person_schema manufacturer_table).1 name
    = GetTableIndexByName person_schema name.
Proof.
  apply AddTable_fresh_lookup. vm_compute.
  intros [Heq|Hin%elem_of_nil]%elem_of_cons; [discriminate Heq|done].
Defined.

(** X4. Registration keeps table names unique: if no two registered
    tables share a name before a call of [AddTable], none do after it,
    whether the call succeeds or panics. *)
Theorem AddTable_names_unique (rs : ResultSet) (table : InspectedTable) :
  NoDup (map tbl_Name (Tables rs)) →
  NoDup (map tbl_Name (Tables (AddTable rs table).1)).
Proof.
  intros Hnodup. unfold AddTable.
  destruct (AddTable_scan _ _) eqn:Hscan; simpl; [done|].
  rewrite map_app. apply NoDup_app. split; [done|]. split.
  - intros name Hin [->|[]%elem_of_nil]%elem_of_cons.
    apply AddTable_scan_elem_of in Hin. congruence.
  - apply NoDup_singleton.
Qed.

Lemma AddTable_names_unique_witness :
  NoDup (map tbl_Name (Tables (AddTable vehicle_schema person_table).1)).
Proof.
  apply AddTable_names_unique. compute_done.
Defined.

Lemma GetColumnByName_loop_spec (cols : list InspectedColumn) (name : string) :
  match GetColumnByName_loop cols name with
  | Done c =>
      ∃ i : nat, cols !! i = Some c ∧ col_Name c = name ∧
        ∀ (j : nat) (c' : InspectedColumn),
          (j < i)%nat → cols !! j = Some c' → col_Name c' ≠ name
  | Panicked p =>
      p = PanicMsg "Could not find matching column" ∧ name ∉ map col_Name cols
  | OutOfFuel => False
  end.
Proof.
  induction cols as [|c cols IH]; simpl.
  - split; [done|]. by intros ?%elem_of_nil.
  - case_decide as Hname.
    + exists 0%nat. split; [done|]. split; [done|].
      intros j c' Hj. exfalso. lia.
    + destruct (GetColumnByName_loop cols name) as [c0|p|]; [| |done].
      * destruct IH as (i & Hlook & Hn & Hfirst).
        exists (S i). split; [done|]. split; [done|].
        intros [|j] c' Hj Hlook'; simpl in Hlook'; [congruence|].
        apply (Hfirst j); [lia|done].
      * destruct IH as [-> Hnotin]. split; [done|].
        by intros [?|?]%elem_of_cons.
Qed.

(** X5. [GetColumnByName] returns the first column of the table with
    the given name, and panics with "Could not find matching column"
    exactly when the table has no column of that name. *)
Theorem GetColumnByName_first_or_panic (it : InspectedTable) (name : string) :
  match GetColumnByName it name with
  | Done c =>
      ∃ i : nat, Columns it !! i = Some c ∧ col_Name c = name ∧
        ∀ (j : nat) (c' : InspectedColumn),
          (j < i)%nat → Columns it !! j = Some c' → col_Name c' ≠ name
  | Panicked p =>
      p = PanicMsg "Could not find matching column" ∧
      name ∉ map col_Name (Columns it)
  | OutOfFuel => False
  end.
Proof. apply GetColumnByName_loop_spec. Qed.

Lemma HasPointerToTable_loop_spec (cols : list InspectedColumn) (tableName : string) :
  match HasPointerToTable_loop cols tableName with
  | Some col =>
      ∃ i : nat, cols !! i = Some col ∧ PointsToTable col = tableName ∧
        ∀ (j : nat) (c' : InspectedColumn),
          (j < i)%nat → cols !! j = Some c' → PointsToTable c' ≠ tableName
  | None => tableName ∉ map PointsToTable cols
  end.
Proof.
  induction cols as [|c cols IH]; simpl.
  - by intros ?%elem_of_nil.
  - case_decide as Hname.
    + exists 0%nat. split; [done|]. split; [done|].
      intros j c' Hj. exfalso. lia.
    + destruct (HasPointerToTable_loop cols tableName) as [c0|].
      * destruct IH as (i & Hlook & Hn & Hfirst).
        exists (S i). split; [done|]. split; [done|].
        intros [|j] c' Hj Hlook'; simpl in Hlook'; [congruence|].
        apply (Hfirst j); [lia|done].
      * by intros [?|?]%elem_of_cons.
Qed.

(** X6. [HasPointerToTable] returns the first column of the table whose
    foreign key targets the given table, and [nil] exactly when no
    column of the table targets it. *)
Theorem HasPointerToTable_first_or_nil (it : InspectedTable) (tableName : string) :
  match HasPointerToTable it tableName with
  | Some col =>
      ∃ i : nat, Columns it !! i = Some col ∧ PointsToTable col = tableName ∧
        ∀ (j : nat) (c' : InspectedColumn),
          (j < i)%nat → Columns it !! j = Some c' → PointsToTable c' ≠ tableName
  | None => tableName ∉ map PointsToTable (Columns it)
  end.
Proof. apply HasPointerToTable_loop_spec. Qed.

Lemma ListTablesPointedTo_loop_spec (cols : list InspectedColumn) (res : list string) :
  ListTablesPointedTo_loop cols res
  = res ++ map PointsToTable (filter (λ c, PointsToTable c ≠ "") cols).
Proof.
  revert res. induction cols as [|c cols IH]; intros res; simpl.
  - by rewrite app_nil_r.
  - rewrite filter_cons. case_decide as Hfk; rewrite IH; [|done].
    by rewrite <- app_assoc.
Qed.

Lemma HasPointerToColumn_loop_true (cols : list InspectedColumn)
    (tableName columnName : string) :
  HasPointerToColumn_loop cols tableName columnName = true ↔
  ∃ col, col ∈ cols ∧ PointsToTable col = tableName ∧ PointsToColumn col = columnName.
Proof.
  induction cols as [|c cols IH]; simpl.
  - split; [discriminate|]. by intros (col & ?%elem_of_nil & _).
  - case_decide as Hc.
    + split; [|done]. intros _. exists c. split; [left|done].
    + rewrite IH. split.
      * intros (col & Hin & Hcol). exists col. split; [by right|done].
      * intros (col & [->|Hin]%elem_of_cons & Ht & Hcn); [by destruct Hc|eauto].
Qed.

(** X7. [ListTablesPointedTo] lists the targets of the table's foreign
    keys in column order, one entry for each foreign-key column.  A
    table name that is not empty is in the list exactly when
    [HasPointerToTable] finds a column for it, and whenever
    [HasPointerToColumn] reports a pointer to a column of a table,
    [HasPointerToTable] finds a column for that table. *)
Theorem ListTablesPointedTo_agrees_with_pointers (it : InspectedTable) :
  ListTablesPointedTo it
  = map PointsToTable (filter (λ c, PointsToTable c ≠ "") (Columns it)) ∧
  (∀ tableName, tableName ≠ "" →
     (tableName ∈ ListTablesPointedTo it ↔ is_Some (HasPointerToTable it tableName))) ∧
  (∀ tableName columnName,
     HasPointerToColumn it tableName columnName = true →
     is_Some (HasPointerToTable it tableName)).
Proof.
  unfold ListTablesPointedTo, HasPointerToTable, HasPointerToColumn.
  rewrite ListTablesPointedTo_loop_spec. simpl.
  split; [done|]. split.
  - intros tableName Hne.
    pose proof (HasPointerToTable_loop_spec (Columns it) tableName) as Hspec.
    destruct (HasPointerToTable_loop (Columns it) tableName) as [col|].
    + destruct Hspec as (i & Hlook & Hcol & _).
      split; [by eauto|]. intros _.
      apply list_elem_of_In, in_map_iff. exists col. split; [done|].
      apply list_elem_of_In, list_elem_of_filter. split; [congruence|].
      by eapply list_elem_of_lookup_2.
    + split; [|by intros [? ?]].
      intros (col & Hcol & Hin%list_elem_of_In)%list_elem_of_In%in_map_iff.
      apply list_elem_of_filter in Hin as [_ Hin].
      exfalso. apply Hspec. apply list_elem_of_In, in_map_iff.
      exists col. split; [done|]. by apply list_elem_of_In.
  - intros tableName columnName (col & Hin & Ht & _)%HasPointerToColumn_loop_true.
    pose proof (HasPointerToTable_loop_spec (Columns it) tableName) as Hspec.
    destruct (HasPointerToTable_loop (Columns it) tableName) as [c0|]; [by eauto|].
    exfalso. apply Hspec. apply list_elem_of_In, in_map_iff.
    exists col. split; [done|]. by apply list_elem_of_In.
Qed.

(** ** The accumulated table contents *)

Lemma getOrCreateTableContents_loop_None (cs : list tableContents)
    (tableName : string) (idx : nat) :
  getOrCreateTableContents_loop cs tableName idx = None ↔
  tableName ∉ map TableName cs.
Proof.
  revert idx. induction cs as [|c cs IH]; intros idx; simpl.
  - split; [|done]. by intros _ ?%elem_of_nil.
  - case_decide as Hname.
    + split; [done|]. intros Hnotin. exfalso. apply Hnotin. subst. left.
    + rewrite IH. split.
      * by intros ? [?|?]%elem_of_cons.
      * intros Hnotin Hin. apply Hnotin. by right.
Qed.

Lemma getOrCreateTableContents_loop_Some (cs : list tableContents)
    (tableName : string) (idx i : nat) :
  getOrCreateTableContents_loop cs tableName idx = Some i →
  ∃ (k : nat) (c : tableContents),
    i = (idx + k)%nat ∧ cs !! k = Some c ∧ TableName c = tableName ∧
    ∀ (j : nat) (c' : tableContents),
      (j < k)%nat → cs !! j = Some c' → TableName c' ≠ tableName.
Proof.
  revert idx. induction cs as [|c cs IH]; intros idx; simpl; [done|].
  case_decide as Hname.
  - intros [= <-]. exists 0%nat, c. split; [lia|]. split; [done|]. split; [done|].
    intros j c' Hj. exfalso. lia.
  - intros (k & c0 & -> & Hlook & Hn & Hfirst)%IH.
    exists (S k), c0. split; [lia|]. split; [done|]. split; [done|].
    intros [|j] c' Hj Hlook'; simpl in Hlook'; [congruence|].
    apply (Hfirst j); [lia|done].
Qed.

Lemma getOrCreateTableContents_loop_app (cs ext : list tableContents)
    (tableName : string) (idx i : nat) :
  getOrCreateTableContents_loop cs tableName idx = Some i →
  getOrCreateTableContents_loop (cs ++ ext) tableName idx = Some i.
Proof.
  revert idx. induction cs as [|c cs IH]; intros idx; simpl; [done|].
  case_decide; [done|]. apply IH.
Qed.

Lemma getOrCreateTableContents_loop_fresh (cs : list tableContents)
    (tableName : string) (idx : nat) (cols rows : list string) :
  tableName ∉ map TableName cs →
  getOrCreateTableContents_loop (cs ++ [mkTableContents tableName cols rows])
    tableName idx = Some (idx + length cs)%nat.
Proof.
  revert idx. induction cs as [|c cs IH]; intros idx; simpl.
  - intros _. rewrite decide_True by done. f_equal. lia.
  - intros [Hne Hnotin]%not_elem_of_cons.
    rewrite decide_False by done. rewrite IH by done. f_equal. lia.
Qed.

(** X8. [getOrCreateTableContents] returns the index of the first entry
    of the given table.  The entries that were there stay where they
    are; an entry (without rows) is appended only when the table has
    none; and a second call returns the same index and changes nothing. *)
Theorem getOrCreateTableContents_entry (fc : list tableContents) (tableName : string) :
  (∃ c, (getOrCreateTableContents fc tableName).2
          !! (getOrCreateTableContents fc tableName).1 = Some c ∧
        TableName c = tableName ∧
        ∀ (j : nat) (c' : tableContents),
          (j < (getOrCreateTableContents fc tableName).1)%nat →
          (getOrCreateTableContents fc tableName).2 !! j = Some c' →
          TableName c' ≠ tableName) ∧
  (getOrCreateTableContents fc tableName).2
  = (if decide (tableName ∈ map TableName fc) then fc
     else fc ++ [mkTableContents tableName [] []]) ∧
  getOrCreateTableContents (getOrCreateTableContents fc tableName).2 tableName
  = getOrCreateTableContents fc tableName.
Proof.
  unfold getOrCreateTableContents.
  destruct (getOrCreateTableContents_loop fc tableName 0) as [i|] eqn:Hloop; simpl.
  - pose proof Hloop as (k & c & -> & Hlook & Hname & Hfirst)
      %getOrCreateTableContents_loop_Some.
    split; [by exists c|]. split.
    + rewrite decide_True; [done|].
      apply dec_stable. intros Hnotin.
      apply getOrCreateTableContents_loop_None with (idx := 0%nat) in Hnotin.
      congruence.
    + by rewrite Hloop.
  - pose proof Hloop as Hnotin%getOrCreateTableContents_loop_None.
    split; [|split].
    + exists (mkTableContents tableName [] []).
      split; [by rewrite lookup_app_r, Nat.sub_diag by lia|].
      split; [done|]. intros j c' Hj Hlook Hname.
      rewrite lookup_app_l in Hlook by done.
      apply Hnotin, list_elem_of_In, in_map_iff. exists c'.
      split; [done|]. by eapply list_elem_of_In, list_elem_of_lookup_2.
    + by rewrite decide_False.
    + rewrite (getOrCreateTableContents_loop_fresh fc tableName 0 [] [] Hnotin).
      reflexivity.
Qed.

Lemma getOrCreateTableContents_names (fc : list tableContents) (tableName : string) :
  map TableName (getOrCreateTableContents fc tableName).2
  = if decide (tableName ∈ map TableName fc) then map TableName fc
    else map TableName fc ++ [tableName].
Proof.
  unfold getOrCreateTableContents.
  destruct (getOrCreateTableContents_loop fc tableName 0) as [i|] eqn:Hloop; simpl.
  - rewrite decide_True; [done|]. apply dec_stable. intros Hnotin.
    apply getOrCreateTableContents_loop_None with (idx := 0%nat) in Hnotin.
    congruence.
  - apply getOrCreateTableContents_loop_None in Hloop.
    rewrite decide_False by done. by rewrite map_app.
Qed.

Lemma getOrCreateTableContents_index (fc : list tableContents) (tableName : string) :
  ∃ c, (getOrCreateTableContents fc tableName).2
         !! (getOrCreateTableContents fc tableName).1 = Some c ∧
       TableName c = tableName.
Proof.
  unfold getOrCreateTableContents.
  destruct (getOrCreateTableContents_loop fc tableName 0) as [i|] eqn:Hloop; simpl.
  - apply getOrCreateTableContents_loop_Some in Hloop
      as (k & c & -> & Hlook & Hname & _). by exists c.
  - exists (mkTableContents tableName [] []).
    by rewrite lookup_app_r, Nat.sub_diag by lia.
Qed.

(** ** Decoding a row *)

Lemma hexDigit_code (n : N) :
  (n < 16)%N →
  N_of_ascii (hexDigit n) = if (n <? 10)%N then (48 + n)%N else (87 + n)%N.
Proof.
  intros Hn. unfold hexDigit.
  destruct (N.ltb_spec n 10); apply N_ascii_embedding; lia.
Qed.

Lemma hexDigit_inj (n m : N) :
  (n < 16)%N → (m < 16)%N → hexDigit n = hexDigit m → n = m.
Proof.
  intros Hn Hm Heq. apply (f_equal N_of_ascii) in Heq.
  rewrite !hexDigit_code in Heq by done.
  destruct (N.ltb_spec n 10), (N.ltb_spec m 10); lia.
Qed.

Lemma hexByte_digits_inj (a b : byte) :
  hexDigit (Byte.to_N a / 16) = hexDigit (Byte.to_N b / 16) →
  hexDigit (Byte.to_N a mod 16) = hexDigit (Byte.to_N b mod 16) →
  a = b.
Proof.
  intros Hhi Hlo.
  pose proof (Byte.to_N_bounded a) as Ha.
  pose proof (Byte.to_N_bounded b) as Hb.
  apply hexDigit_inj in Hhi;
    [|apply N.Div0.div_lt_upper_bound; lia|apply N.Div0.div_lt_upper_bound; lia].
  apply hexDigit_inj in Hlo; [|by apply N.mod_lt|by apply N.mod_lt].
  assert (Byte.to_N a = Byte.to_N b) as Heq.
  { rewrite (N.div_mod (Byte.to_N a) 16), (N.div_mod (Byte.to_N b) 16) by done.
    by rewrite Hhi, Hlo. }
  apply (f_equal Byte.of_N) in Heq. rewrite !Byte.of_to_N in Heq. congruence.
Qed.

Lemma uuid_String_injective (u v : list byte) :
  length u = 16%nat → length v = 16%nat →
  uuid_String u = uuid_String v → u = v.
Proof.
  intros Hu Hv Heq.
  do 17 (destruct u as [|? u]; try discriminate Hu). clear Hu.
  do 17 (destruct v as [|? v]; try discriminate Hv). clear Hv.
  cbv -[hexDigit Byte.to_N N.div N.modulo] in Heq.
  repeat match goal with
         | H : String _ _ = String _ _ |- _ => injection H; clear H; intros
         end.
  repeat match goal with
         | H1 : hexDigit (Byte.to_N ?a / 16) = hexDigit (Byte.to_N ?b / 16),
           H2 : hexDigit (Byte.to_N ?a mod 16) = hexDigit (Byte.to_N ?b mod 16)
           |- _ =>
             pose proof (hexByte_digits_inj a b H1 H2); clear H1 H2; subst a
         end.
  reflexivity.
Qed.

(** X9. Two different 16-byte uuid values never get the same
    identifier: on 16-byte arrays, [AsStringFromValue] for the uuid type
    is injective. *)
Theorem AsStringFromValue_uuid_injective (Sprintf_v : Value → string)
    (u v : list byte) :
  length u = 16%nat → length v = 16%nat →
  AsStringFromValue Sprintf_v "uuid" (VArray16 u)
  = AsStringFromValue Sprintf_v "uuid" (VArray16 v) →
  u = v.
Proof.
  intros Hu Hv. unfold AsStringFromValue.
  change (contains _ "uuid") with false. cbv iota.
  rewrite decide_True by done. rewrite !fillRegBytes_16 by done. cbn.
  intros [= Heq]. by apply uuid_String_injective.
Qed.

Lemma AsStringFromValue_uuid_injective_witness : sample_uuid = sample_uuid.
Proof.
  apply (AsStringFromValue_uuid_injective scenario_Sprintf); reflexivity.
Defined.

Section Decoding.

Variable Sprintf_v : Value → string.
Variable Sprintf_plus_v : Value → string.
Variable json_Marshal : Value → option string.

Lemma rowStringVals_loop_length (cols : list InspectedColumn)
    (ifVals : list Value) (acc strs : list string) :
  rowStringVals_loop Sprintf_plus_v json_Marshal cols ifVals acc = Done strs →
  length strs = (length acc + length ifVals)%nat.
Proof.
  revert cols acc. induction ifVals as [|e ifVals IH]; intros cols acc; simpl.
  - intros [= <-]. lia.
  - destruct cols as [|col cols]; [done|].
    destruct (literal _ _ _ e) as [a| |]; cbn; [|done|done].
    intros Hloop%IH. rewrite length_app in Hloop. simpl in Hloop. lia.
Qed.

Lemma fetch_length (tabl : InspectedTable) (rows : list Row)
    (fetched : list Value * gmap string Value) :
  fetch tabl rows = Done fetched → length fetched.1 = length (Columns tabl).
Proof.
  unfold fetch. destruct rows as [|row rows].
  - intros [= <-]. simpl. by rewrite length_replicate.
  - repeat case_decide; try done. intros [= <-]. simpl.
    rewrite length_fmap. lia.
Qed.

(** X10. Whenever a row is fetched and decoded without a panic, whether
    the query matched a row or not, the values row has exactly one
    literal for each column of the table, that is, as many literals as
    [InsertColumnNames] gets names. *)
Theorem row_has_one_literal_per_column (tabl : InspectedTable) (rows : list Row)
    (fetched : list Value * gmap string Value) (rowStringVals : list string) :
  fetch tabl rows = Done fetched →
  rowStringVals_loop Sprintf_plus_v json_Marshal (Columns tabl) fetched.1 []
  = Done rowStringVals →
  length rowStringVals = length (map col_Name (Columns tabl)).
Proof.
  intros Hfetch%fetch_length Hloop%rowStringVals_loop_length.
  rewrite length_map. simpl in Hloop. lia.
Qed.

Lemma literal_quoted (typ : string) (e : Value) (s : string) :
  e ≠ VNil →
  literal Sprintf_plus_v json_Marshal typ e = Done s →
  ∃ body, s = "'" +:+ body +:+ "'".
Proof.
  intros Hnil. unfold literal.
  destruct e; try done.
  all: case_decide; [try done; by intros [= <-]; eexists|].
  all: destruct (contains _ typ); [try done; by intros [= <-]; eexists|].
  all: destruct (contains _ typ);
    [destruct (json_Marshal _); [|done]|]; by intros [= <-]; eexists.
Qed.

(** X11. The literal of a value that is not null is wrapped in single
    quotes for every declared type, integer included, so the bare
    keyword NULL is the literal of the null value only. *)
Theorem literal_quoted_unless_null (typ : string) (e : Value) (s : string) :
  literal Sprintf_plus_v json_Marshal typ e = Done s →
  (e = VNil ∧ s = "NULL") ∨
  (e ≠ VNil ∧ s ≠ "NULL" ∧ ∃ body, s = "'" +:+ body +:+ "'").
Proof.
  intros Hlit.
  assert (e = VNil ∨ e ≠ VNil) as [->|Hnil]
    by (destruct e; (by left) || (by right)).
  - left. cbn in Hlit. by injection Hlit as <-.
  - right. split; [done|].
    destruct (literal_quoted typ e s Hnil Hlit) as [body ->].
    split; [done|]. by exists body.
Qed.

End Decoding.

Lemma literal_quoted_unless_null_witness :
  (VString "NULL" = VNil ∧ "'NULL'" = "NULL") ∨
  (VString "NULL" ≠ VNil ∧ "'NULL'" ≠ "NULL" ∧
   ∃ body, "'NULL'" = "'" +:+ body +:+ "'").
Proof.
  apply (literal_quoted_unless_null scenario_Sprintf scenario_Marshal "text").
  reflexivity.
Defined.

Lemma row_has_one_literal_per_column_witness :
  length ["'a'"; "NULL"] = length (map col_Name (Columns node_table)).
Proof.
  apply (row_has_one_literal_per_column scenario_Sprintf scenario_Marshal
           node_table [root_row] root_fetched).
  - reflexivity.
  - vm_compute. reflexivity.
Defined.

Section Identifiers.

Variable Sprintf_v : Value → string.
Variable Sprintf_plus_v : Value → string.
Variable json_Marshal : Value → option string.

(** X12. For a declared type outside uuid, the timestamp types, json
    and jsonb, the literal of every value is produced without a panic:
    the fallback path has no type assertion. *)
Theorem literal_fallback_total (typ : string) (e : Value) :
  typ ∉ ["uuid"; "timestamp"; "timestamp with time zone";
         "timestamp without time zone"; "json"; "jsonb"] →
  ∃ s, literal Sprintf_plus_v json_Marshal typ e = Done s.
Proof.
  intros Htyp. unfold literal.
  assert (∀ x, x ∈ ["uuid"; "timestamp"; "timestamp with time zone";
                    "timestamp without time zone"; "json"; "jsonb"] → x ≠ typ)
    as Hne by (by intros x Hx ->).
  assert (contains ["timestamp"; "timestamp with time zone";
                    "timestamp without time zone"] typ = false) as Hts.
  { simpl. by rewrite !decide_False by (apply Hne; by repeat constructor). }
  assert (contains ["json"; "jsonb"] typ = false) as Hjs.
  { simpl. by rewrite !decide_False by (apply Hne; by repeat constructor). }
  assert (typ ≠ "uuid") as Huuid.
  { apply not_eq_sym, Hne. by repeat constructor. }
  destruct e; [by eexists|..];
    rewrite decide_False, Hts, Hjs by done; by eexists.
Qed.

(** X13. For the text-like types, a value that arrives as a byte
    sequence is decoded to the string with these bytes: the bytes of a
    string decode to the same identifier as the string itself. *)
Theorem AsStringFromValue_text_bytes (pgTypeName : string) (str : string) :
  pgTypeName ∈ ["text"; "character varying"; "json"] →
  AsStringFromValue Sprintf_v pgTypeName (VBytes (list_byte_of_string str)) = Done str ∧
  AsStringFromValue Sprintf_v pgTypeName (VString str) = Done str.
Proof.
  intros Htyp%contains_elem_of. unfold AsStringFromValue. rewrite Htyp.
  by rewrite string_of_list_byte_of_string.
Qed.

(** X14. A uuid value that arrives as a byte sequence of at most 16
    bytes is padded with zero bytes to 16 and decoded to a canonical
    UUID string; a longer byte sequence makes [AsStringFromValue] panic
    with an index out of range. *)
Theorem AsStringFromValue_uuid_bytes (d : list byte) :
  if decide (length d ≤ 16)%nat then
    AsStringFromValue Sprintf_v "uuid" (VBytes d)
    = Done (uuid_String (d ++ replicate (16 - length d) x00)) ∧
    is_canonical_uuid (uuid_String (d ++ replicate (16 - length d) x00)) = true
  else
    AsStringFromValue Sprintf_v "uuid" (VBytes d) = Panicked PanicIndexOutOfRange.
Proof.
  assert (AsStringFromValue Sprintf_v "uuid" (VBytes d)
          = (fillRegBytes d ≫= λ regBytes, Done (uuid_String regBytes))) as ->.
  { unfold AsStringFromValue.
    change (contains _ "uuid") with false. cbv iota.
    by rewrite decide_True by done. }
  unfold fillRegBytes. case_decide as Hlen.
  - rewrite decide_False by lia. split; [reflexivity|].
    apply uuid_String_canonical. rewrite length_app, length_replicate. lia.
  - rewrite decide_True by lia. reflexivity.
Qed.

End Identifiers.

Lemma literal_fallback_total_witness :
  ∃ s, literal scenario_Sprintf scenario_Marshal "integer" (VTime sample_time) = Done s.
Proof.
  apply literal_fallback_total. vm_compute.
  intros Hin. repeat (apply elem_of_cons in Hin as [Heq|Hin]; [discriminate Heq|]).
  by apply elem_of_nil in Hin.
Defined.

Lemma AsStringFromValue_text_bytes_witness :
  AsStringFromValue scenario_Sprintf "character varying"
    (VBytes (list_byte_of_string "v1")) = Done "v1" ∧
  AsStringFromValue scenario_Sprintf "character varying" (VString "v1") = Done "v1".
Proof.
  apply AsStringFromValue_text_bytes. right. left.
Defined.

(** ** Statement emission *)

Lemma string_append_cons (c : ascii) (s1 s2 : string) :
  String c s1 +:+ s2 = String c (s1 +:+ s2).
Proof. reflexivity. Qed.

Lemma string_append_assoc (s1 s2 s3 : string) :
  (s1 +:+ s2) +:+ s3 = s1 +:+ s2 +:+ s3.
Proof.
  induction s1 as [|c s1 IH]; [done|].
  by rewrite !string_append_cons, IH.
Qed.

Lemma string_append_nil_r (s : string) : s +:+ "" = s.
Proof.
  induction s as [|c s IH]; [done|]. by rewrite string_append_cons, IH.
Qed.

Lemma valueRows_loop_join (rows : list string) (valueRows : string) :
  valueRows_loop rows valueRows
  = valueRows +:+
    strings_Join (map (λ r, "(" +:+ r +:+ ")") rows) ("," +:+ newline).
Proof.
  revert valueRows. induction rows as [|r rows IH]; intros valueRows.
  - simpl. by rewrite string_append_nil_r.
  - destruct rows as [|r' rows].
    + reflexivity.
    + change (valueRows_loop (r :: r' :: rows) valueRows)
        with (valueRows_loop (r' :: rows)
                ((valueRows +:+ "(" +:+ r +:+ ")") +:+ "," +:+ newline)).
      rewrite IH.
      change (strings_Join (map (λ r0, "(" +:+ r0 +:+ ")") (r :: r' :: rows))
                ("," +:+ newline))
        with (("(" +:+ r +:+ ")") +:+ ("," +:+ newline) +:+
              strings_Join (map (λ r0, "(" +:+ r0 +:+ ")") (r' :: rows))
                ("," +:+ newline)).
      by rewrite !string_append_assoc.
Qed.

(** X15. The values clause of a statement is the accumulated rows, each
    in parentheses, joined by a comma and a line break: there is a
    separator between two rows and none after the last one. *)
Theorem valueRows_are_joined_rows (tblInfo : tableContents) :
  valueRows_loop (ValuesRows tblInfo) ""
  = strings_Join (map (λ r, "(" +:+ r +:+ ")") (ValuesRows tblInfo))
      ("," +:+ newline).
Proof. by rewrite valueRows_loop_join. Qed.

Lemma emit_table_filter (tableName : string) (fc : list tableContents) :
  emit_table tableName fc
  = map (λ c, (TableName c, insertStatement c))
      (filter (λ c, TableName c = tableName) fc).
Proof.
  induction fc as [|c fc IH]; simpl; [done|].
  rewrite filter_cons.
  destruct (decide (TableName c = tableName)) as [Heq|Hne].
  - rewrite decide_False by (intros Hn; by apply Hn). simpl. by rewrite IH.
  - by rewrite decide_True by done.
Qed.

Lemma emit_table_unique (tableName : string) (fc : list tableContents) :
  NoDup (map TableName fc) →
  map fst (emit_table tableName fc)
  = if decide (tableName ∈ map TableName fc) then [tableName] else [].
Proof.
  induction fc as [|c fc IH]; cbn [emit_table map].
  - intros _. destruct (decide _) as [Hin|]; [by apply elem_of_nil in Hin|done].
  - intros [Hnotin Hnodup]%NoDup_cons. specialize (IH Hnodup).
    destruct (decide (TableName c ≠ tableName)) as [Hne|Heq].
    + rewrite IH. destruct (decide (tableName ∈ map TableName fc)) as [Hin|Hin].
      * by rewrite decide_True by (by right).
      * rewrite decide_False; [done|]. by intros [?|?]%elem_of_cons.
    + apply dec_stable in Heq. subst tableName. cbn [map fst]. rewrite IH.
      rewrite decide_False by done. by rewrite decide_True by left.
Qed.

Lemma emit_unique (tableOrdering : list string) (fc : list tableContents) :
  NoDup (map TableName fc) →
  map fst (emit tableOrdering fc)
  = filter (λ n, n ∈ map TableName fc) tableOrdering.
Proof.
  intros Hnodup. induction tableOrdering as [|n ord IH]; [done|].
  cbn [emit]. rewrite map_app, IH, emit_table_unique, filter_cons by done.
  by case_decide.
Qed.

(** X16. When the accumulated entries have distinct table names, the
    emitted statements follow the table ordering: there is exactly one
    statement for each name of the ordering that has an entry, in the
    order of the ordering, and none for a name without an entry.  Each
    statement is the INSERT statement of an accumulated entry. *)
Theorem emit_follows_ordering (tableOrdering : list string) (fc : list tableContents) :
  NoDup (map TableName fc) →
  map fst (emit tableOrdering fc)
  = filter (λ n, n ∈ map TableName fc) tableOrdering ∧
  ∀ tableName stmt, (tableName, stmt) ∈ emit tableOrdering fc →
    ∃ c, c ∈ fc ∧ TableName c = tableName ∧ stmt = insertStatement c.
Proof.
  intros Hnodup. split; [by apply emit_unique|].
  induction tableOrdering as [|n ord IH]; simpl; intros tableName stmt.
  - by intros ?%elem_of_nil.
  - intros [Hin|Hin]%elem_of_app; [|by apply IH].
    rewrite emit_table_filter in Hin.
    apply list_elem_of_In, in_map_iff in Hin as (c & [= <- <-] & Hc).
    apply list_elem_of_In, list_elem_of_filter in Hc as [_ Hc]. by exists c.
Qed.

Lemma emit_follows_ordering_witness :
  map fst (emit ["vehicle"; "manufacturer"; "person"]
             [mkTableContents "manufacturer" ["id"] ["'m1'"];
              mkTableContents "vehicle" ["id"; "make"] ["'v1', 'm1'"]])
  = filter (λ n, n ∈ map TableName
                       [mkTableContents "manufacturer" ["id"] ["'m1'"];
                        mkTableContents "vehicle" ["id"; "make"] ["'v1', 'm1'"]])
      ["vehicle"; "manufacturer"; "person"] ∧
  ∀ tableName stmt,
    (tableName, stmt) ∈ emit ["vehicle"; "manufacturer"; "person"]
                          [mkTableContents "manufacturer" ["id"] ["'m1'"];
                           mkTableContents "vehicle" ["id"; "make"] ["'v1', 'm1'"]] →
    ∃ c, c ∈ [mkTableContents "manufacturer" ["id"] ["'m1'"];
              mkTableContents "vehicle" ["id"; "make"] ["'v1', 'm1'"]] ∧
         TableName c = tableName ∧ stmt = insertStatement c.
Proof.
  apply emit_follows_ordering. compute_done.
Defined.

(** ** What a traversal does to the session *)

Section TraversalInduction.

Variable conn_Query : string → QueryResult.
Variable Sprintf_v : Value → string.
Variable Sprintf_plus_v : Value → string.
Variable json_Marshal : Value → option string.
Variable resSet : ResultSet.

(** A relation between the session before and after a step that is
    reflexive and transitive and holds for the two updates a traversal
    makes: recording a row of a registered table, and marking an
    identifier as visited. *)
Variable R : Session → Session → Prop.
Hypothesis R_refl : ∀ st, R st st.
Hypothesis R_trans : ∀ st1 st2 st3, R st1 st2 → R st2 st3 → R st1 st3.
Hypothesis R_visited :
  ∀ st ident,
    contains (visited st) ident = false →
    R st (mkSession (fullContents st) (visited st ++ [ident])).
Hypothesis R_row :
  ∀ st fromTable tabl rowVal,
    index (Tables resSet) (GetTableIndexByName resSet fromTable) = Done tabl →
    R st (mkSession (recordRow (fullContents st) fromTable tabl rowVal) (visited st)).

Lemma forward_related (rec : traversal) (fromTable : string)
    (resultData : gmap string Value) (ts : list InspectedTable) (st st' : Session) :
  (∀ st0 t c v st1, rec st0 t c v = Done st1 → R st0 st1) →
  traverseTables_forward Sprintf_v rec fromTable resultData ts st = Done st' →
  R st st'.
Proof.
  intros Hrec. revert st.
  induction ts as [|t ts IH]; intros st; simpl.
  - intros [= <-]. apply R_refl.
  - destruct (HasPointerToTable t fromTable) as [col|]; [|apply IH].
    intros (ident & _ & (st1 & Hcall & Hrest)%bind_Done_inv)%bind_Done_inv.
    eapply R_trans; [by eapply Hrec|by apply IH].
Qed.

Lemma backward_related (rec : traversal) (resultData : gmap string Value)
    (cols : list InspectedColumn) (st st' : Session) :
  (∀ st0 t c v st1, rec st0 t c v = Done st1 → R st0 st1) →
  traverseTables_backward Sprintf_v rec resultData cols st = Done st' →
  R st st'.
Proof.
  intros Hrec. revert st.
  induction cols as [|col cols IH]; intros st; cbn [traverseTables_backward].
  - intros [= <-]. apply R_refl.
  - case_decide; [|apply IH].
    destruct (resultData_get resultData (col_Name col)); cbv beta iota;
      try apply IH.
    all: intros (ident & _ & Hrest)%bind_Done_inv.
    all: destruct (contains (visited st) ident) eqn:Hseen; [by apply IH|].
    all: apply bind_Done_inv in Hrest as (st1 & Hcall & Hrest).
    all: eapply R_trans; [by apply R_visited|].
    all: eapply R_trans; [by eapply Hrec|by apply IH].
Qed.

Lemma body_related (rec : traversal) (st st' : Session)
    (fromTable identifyingColumnName identifier : string) :
  (∀ st0 t c v st1, rec st0 t c v = Done st1 → R st0 st1) →
  traverseTables_body conn_Query Sprintf_v Sprintf_plus_v json_Marshal rec resSet
    st fromTable identifyingColumnName identifier = Done st' →
  R st st'.
Proof.
  intros Hrec. unfold traverseTables_body.
  destruct (conn_Query _) as [|rows]; [done|].
  intros (tabl & Htabl & Hrest)%bind_Done_inv.
  apply bind_Done_inv in Hrest as (fetched & _ & Hrest).
  apply bind_Done_inv in Hrest as (rowStringVals & _ & Hrest).
  apply bind_Done_inv in Hrest as (st1 & Hfwd & Hbwd).
  eapply R_trans; [by apply (R_row st fromTable tabl)|].
  eapply R_trans; [by eapply forward_related|by eapply backward_related].
Qed.

Lemma traverseTables_related (fuel : nat) (st st' : Session)
    (fromTable identifyingColumnName identifier : string) :
  traverseTables conn_Query Sprintf_v Sprintf_plus_v json_Marshal fuel resSet
    st fromTable identifyingColumnName identifier = Done st' →
  R st st'.
Proof.
  revert st st' fromTable identifyingColumnName identifier.
  induction fuel as [|fuel IH]; intros st st' t c v; simpl; [done|].
  apply body_related. intros st0 t0 c0 v0 st1. apply IH.
Qed.

End TraversalInduction.

Lemma getOrCreateTableContents_cases (fc : list tableContents) (tableName : string) :
  ((getOrCreateTableContents fc tableName).2 = fc ∧
   ((getOrCreateTableContents fc tableName).1 < length fc)%nat) ∨
  ((getOrCreateTableContents fc tableName).2
   = fc ++ [mkTableContents tableName [] []] ∧
   (getOrCreateTableContents fc tableName).1 = length fc).
Proof.
  unfold getOrCreateTableContents.
  destruct (getOrCreateTableContents_loop fc tableName 0) as [i|] eqn:Hloop; simpl.
  - left. split; [done|].
    apply getOrCreateTableContents_loop_Some in Hloop
      as (k & c & -> & Hlook & _). by apply lookup_lt_Some in Hlook.
  - by right.
Qed.

Lemma recordRow_lookup (fc : list tableContents) (fromTable : string)
    (tabl : InspectedTable) (rowVal : string) (i : nat) :
  recordRow fc fromTable tabl rowVal !! i
  = if decide ((getOrCreateTableContents fc fromTable).1 = i)
    then (λ c, mkTableContents (TableName c) (map col_Name (Columns tabl))
                 (ValuesRows c ++ [rowVal]))
           <$> (getOrCreateTableContents fc fromTable).2 !! i
    else (getOrCreateTableContents fc fromTable).2 !! i.
Proof.
  unfold recordRow. cbv zeta. rewrite !list_lookup_alter.
  case_decide as Hi; [subst i|done]. rewrite decide_True by done.
  destruct ((getOrCreateTableContents fc fromTable).2
              !! (getOrCreateTableContents fc fromTable).1); reflexivity.
Qed.

Lemma recordRow_names (fc : list tableContents) (fromTable : string)
    (tabl : InspectedTable) (rowVal : string) :
  map TableName (recordRow fc fromTable tabl rowVal)
  = map TableName (getOrCreateTableContents fc fromTable).2.
Proof.
  apply list_eq. intros i.
  change (map TableName) with (fmap (M := list) TableName).
  rewrite !list_lookup_fmap, recordRow_lookup.
  case_decide; [|done]. by destruct (_ !! i).
Qed.

Lemma recordRow_session_ok (resSet : ResultSet) (st : Session)
    (fromTable : string) (tabl : InspectedTable) (rowVal : string) :
  index (Tables resSet) (GetTableIndexByName resSet fromTable) = Done tabl →
  session_ok resSet st →
  session_ok resSet
    (mkSession (recordRow (fullContents st) fromTable tabl rowVal) (visited st)).
Proof.
  intros Htabl [Hnodup Hentries]. split; simpl.
  - rewrite recordRow_names, getOrCreateTableContents_names.
    case_decide as Hin; [done|].
    apply NoDup_app. split; [done|]. split; [|apply NoDup_singleton].
    by intros x Hx [->|[]%elem_of_nil]%elem_of_cons.
  - apply Forall_lookup. intros i c' Hlook.
    rewrite recordRow_lookup in Hlook.
    destruct (getOrCreateTableContents_index (fullContents st) fromTable)
      as (c0 & Hc0 & Hname0).
    case_decide as Hi.
    + subst i. rewrite Hc0 in Hlook. injection Hlook as <-.
      exists tabl. simpl. rewrite Hname0. split; [done|]. split; [done|].
      by destruct (ValuesRows c0).
    + destruct (getOrCreateTableContents_cases (fullContents st) fromTable)
        as [[Hsame _]|[Hnew Hidx]].
      * rewrite Hsame in Hlook. by eapply Forall_lookup_1.
      * rewrite Hnew in Hlook. rewrite Hidx in Hi.
        apply lookup_app_Some in Hlook as [Hlook|[Hge Hlook]].
        -- by eapply Forall_lookup_1.
        -- apply list_lookup_singleton_Some in Hlook as [Hz _]. lia.
Qed.

Lemma recordRow_extends (st : Session) (fromTable : string)
    (tabl : InspectedTable) (rowVal : string) :
  session_extends st
    (mkSession (recordRow (fullContents st) fromTable tabl rowVal) (visited st)).
Proof.
  split; simpl; [done|]. intros i c Hlook.
  assert ((getOrCreateTableContents (fullContents st) fromTable).2 !! i = Some c)
    as Hcreated.
  { destruct (getOrCreateTableContents_cases (fullContents st) fromTable)
      as [[-> _]|[-> _]]; [done|].
    by apply lookup_app_l_Some. }
  rewrite recordRow_lookup, Hcreated. case_decide.
  - eexists. split; [done|]. split; [done|]. simpl. by apply prefix_app_r.
  - by exists c.
Qed.

Lemma session_extends_trans (st1 st2 st3 : Session) :
  session_extends st1 st2 → session_extends st2 st3 → session_extends st1 st3.
Proof.
  intros [Hv12 Hfc12] [Hv23 Hfc23]. split; [by etrans|].
  intros i c Hlook.
  destruct (Hfc12 i c Hlook) as (c2 & Hlook2 & Hname2 & Hrows2).
  destruct (Hfc23 i c2 Hlook2) as (c3 & Hlook3 & Hname3 & Hrows3).
  exists c3. split; [done|]. split; [congruence|by etrans].
Qed.

Section SessionInvariants.

Variable conn_Query : string → QueryResult.
Variable Sprintf_v : Value → string.
Variable Sprintf_plus_v : Value → string.
Variable json_Marshal : Value → option string.

Lemma traverseTables_session_ok (fuel : nat) (resSet : ResultSet) (st st' : Session)
    (fromTable identifyingColumnName identifier : string) :
  traverseTables conn_Query Sprintf_v Sprintf_plus_v json_Marshal fuel resSet
    st fromTable identifyingColumnName identifier = Done st' →
  session_ok resSet st → session_ok resSet st'.
Proof.
  apply (traverseTables_related conn_Query Sprintf_v Sprintf_plus_v json_Marshal
           resSet (λ st0 st1, session_ok resSet st0 → session_ok resSet st1)).
  - done.
  - intros st1 st2 st3 H12 H23 H1. apply H23, H12, H1.
  - intros st0 ident _ [Hnodup Hentries]. by split.
  - intros st0 t tabl rowVal Htabl. by apply recordRow_session_ok.
Qed.

(** X17. A traversal that returns keeps the session well formed: the
    entries have distinct table names, and every entry belongs to a
    registered table, lists the names of all columns of that table in
    schema order, and holds at least one row. *)
Theorem traverseTables_keeps_session_ok (fuel : nat) (resSet : ResultSet)
    (st st' : Session) (fromTable identifyingColumnName identifier : string) :
  session_ok resSet st →
  traverseTables conn_Query Sprintf_v Sprintf_plus_v json_Marshal fuel resSet
    st fromTable identifyingColumnName identifier = Done st' →
  session_ok resSet st'.
Proof. intros Hok Hrun. by eapply traverseTables_session_ok. Qed.

Lemma traverseTables_session_extends (fuel : nat) (resSet : ResultSet)
    (st st' : Session) (fromTable identifyingColumnName identifier : string) :
  traverseTables conn_Query Sprintf_v Sprintf_plus_v json_Marshal fuel resSet
    st fromTable identifyingColumnName identifier = Done st' →
  session_extends st st'.
Proof.
  apply (traverseTables_related conn_Query Sprintf_v Sprintf_plus_v json_Marshal
           resSet session_extends).
  - intros st0. split; [done|]. intros i c Hlook. by exists c.
  - apply session_extends_trans.
  - intros st0 ident _. split; simpl; [by apply prefix_app_r|].
    intros i c Hlook. by exists c.
  - intros st0 t tabl rowVal _. apply recordRow_extends.
Qed.

(** X18. A traversal that returns never loses what the session held:
    the identifiers visited before are still the first visited ones,
    and every entry is still at its index, for the same table, its rows
    still the first rows of the entry. *)
Theorem traverseTables_only_adds (fuel : nat) (resSet : ResultSet)
    (st st' : Session) (fromTable identifyingColumnName identifier : string) :
  traverseTables conn_Query Sprintf_v Sprintf_plus_v json_Marshal fuel resSet
    st fromTable identifyingColumnName identifier = Done st' →
  session_extends st st'.
Proof. apply traverseTables_session_extends. Qed.

(** X24. No identifier is marked as visited twice: if the visited list
    has no duplicates before a traversal, it has none after it. *)
Theorem traverseTables_visited_unique (fuel : nat) (resSet : ResultSet)
    (st st' : Session) (fromTable identifyingColumnName identifier : string) :
  NoDup (visited st) →
  traverseTables conn_Query Sprintf_v Sprintf_plus_v json_Marshal fuel resSet
    st fromTable identifyingColumnName identifier = Done st' →
  NoDup (visited st').
Proof.
  intros Hnodup Hrun. revert Hrun Hnodup.
  apply (traverseTables_related conn_Query Sprintf_v Sprintf_plus_v json_Marshal
           resSet (λ st0 st1, NoDup (visited st0) → NoDup (visited st1))).
  - done.
  - intros st1 st2 st3 H12 H23 H1. apply H23, H12, H1.
  - intros st0 ident Hseen Hnd. simpl.
    apply NoDup_app. split; [done|]. split; [|apply NoDup_singleton].
    intros x Hx [->|[]%elem_of_nil]%elem_of_cons.
    apply contains_elem_of in Hx. congruence.
  - done.
Qed.

End SessionInvariants.

Lemma session_ok_initial (resSet : ResultSet) : session_ok resSet initial_session.
Proof. split; simpl; constructor. Qed.

Lemma traverseTables_keeps_session_ok_witness :
  session_ok vehicle_schema
    (mkSession
       [mkTableContents "vehicle" ["id"; "make"] ["'v1', 'm1'"; "'v1', 'm1'"];
        mkTableContents "manufacturer" ["id"] ["'m1'"]]
       ["m1"]).
Proof.
  apply (traverseTables_keeps_session_ok vehicle_conn scenario_Sprintf
           scenario_Sprintf scenario_Marshal 3 vehicle_schema initial_session _
           "vehicle" "id" "v1").
  - apply session_ok_initial.
  - vm_compute. reflexivity.
Defined.

Lemma traverseTables_only_adds_witness :
  session_extends
    (mkSession [mkTableContents "manufacturer" ["id"] ["'m1'"]] ["m1"])
    (mkSession
       [mkTableContents "manufacturer" ["id"] ["'m1'"; "'m1'"];
        mkTableContents "vehicle" ["id"; "make"] ["'v1', 'm1'"]]
       ["m1"]).
Proof.
  apply (traverseTables_only_adds vehicle_conn scenario_Sprintf
           scenario_Sprintf scenario_Marshal 3 vehicle_schema _ _
           "manufacturer" "id" "m1").
  vm_compute. reflexivity.
Defined.

Lemma index_registered (resSet : ResultSet) (name : string) (tabl : InspectedTable) :
  index (Tables resSet) (GetTableIndexByName resSet name) = Done tabl →
  name ∈ map tbl_Name (Tables resSet).
Proof.
  intros Hidx. apply dec_stable. intros Hnotin.
  unfold GetTableIndexByName in Hidx.
  by rewrite GetTableIndexByName_loop_absent in Hidx.
Qed.

Lemma emit_elem_of (tableOrdering : list string) (fc : list tableContents)
    (tableName stmt : string) :
  (tableName, stmt) ∈ emit tableOrdering fc →
  ∃ c, c ∈ fc ∧ TableName c = tableName ∧ stmt = insertStatement c.
Proof.
  induction tableOrdering as [|n ord IH]; simpl.
  - by intros ?%elem_of_nil.
  - intros [Hin|Hin]%elem_of_app; [|by apply IH].
    rewrite emit_table_filter in Hin.
    apply list_elem_of_In, in_map_iff in Hin as (c & [= <- <-] & Hc).
    apply list_elem_of_In, list_elem_of_filter in Hc as [_ Hc]. by exists c.
Qed.

Section Output.

Variable conn_Query : string → QueryResult.
Variable Sprintf_v : Value → string.
Variable Sprintf_plus_v : Value → string.
Variable json_Marshal : Value → option string.

(** X19. A traversal that is started on a table the schema does not
    have records nothing: it panics, on the failed query or else on
    indexing [Tables] with [-1]. *)
Theorem traverseTables_unregistered_table (k : nat) (resSet : ResultSet)
    (st : Session) (fromTable identifyingColumnName identifier : string) :
  fromTable ∉ map tbl_Name (Tables resSet) →
  traverseTables conn_Query Sprintf_v Sprintf_plus_v json_Marshal (S k) resSet
    st fromTable identifyingColumnName identifier
  = match conn_Query (selectQuery fromTable identifyingColumnName identifier) with
    | QueryFailed => Panicked PanicQueryError
    | QueryRows _ => Panicked PanicIndexOutOfRange
    end.
Proof.
  intros Hnotin. simpl. unfold traverseTables_body.
  destruct (conn_Query _) as [|rows]; [done|].
  unfold GetTableIndexByName.
  by rewrite GetTableIndexByName_loop_absent.
Qed.

(** X20. When the registered tables have distinct names, an extraction
    that returns emits exactly one statement for each table the
    traversal accumulated rows for, no table twice and none left out;
    each statement belongs to a registered table, lists all columns of
    that table and has at least one values row. *)
Theorem extraction_one_statement_per_table (fuel : nat) (resSet : ResultSet)
    (startAtTable identifyingColumnName identifier : string)
    (stmts : list (string * string)) :
  NoDup (map tbl_Name (Tables resSet)) →
  extraction conn_Query Sprintf_v Sprintf_plus_v json_Marshal fuel resSet
    startAtTable identifyingColumnName identifier = Done stmts →
  ∃ st',
    traverseTables conn_Query Sprintf_v Sprintf_plus_v json_Marshal fuel resSet
      initial_session startAtTable identifyingColumnName identifier = Done st' ∧
    map fst stmts ≡ₚ map TableName (fullContents st') ∧
    NoDup (map fst stmts) ∧
    ∀ tableName stmt, (tableName, stmt) ∈ stmts →
      ∃ c tabl,
        stmt = insertStatement c ∧ TableName c = tableName ∧
        index (Tables resSet) (GetTableIndexByName resSet tableName) = Done tabl ∧
        InsertColumnNames c = map col_Name (Columns tabl) ∧
        ValuesRows c ≠ [].
Proof.
  intros Hnames (st' & Hrun & [= <-])%bind_Done_inv.
  exists st'. split; [done|].
  pose proof (traverseTables_session_ok _ _ _ _ _ _ _ _ _ _ _ Hrun
                (session_ok_initial resSet)) as [Hnodup Hentries].
  unfold DetermineInsertTableOrder.
  rewrite DetermineInsertTableOrder_loop_spec, app_nil_l.
  rewrite emit_unique by done.
  assert (NoDup (filter (λ n, n ∈ map TableName (fullContents st'))
                   (map tbl_Name (Tables resSet)))) as Hfilter
    by (by apply NoDup_filter).
  split; [|split; [done|]].
  - apply NoDup_Permutation; [done|done|]. intros n.
    rewrite list_elem_of_filter. split; [by intros [? _]|].
    intros Hin. split; [done|].
    apply list_elem_of_In, in_map_iff in Hin as (c & <- & Hc).
    apply list_elem_of_In in Hc.
    destruct (proj1 (Forall_forall _ _) Hentries c Hc) as (tabl & Hidx & _).
    by eapply index_registered.
  - intros tableName stmt (c & Hc & Hname & ->)%emit_elem_of.
    destruct (proj1 (Forall_forall _ _) Hentries c Hc) as (tabl & Hidx & Hcols & Hrows).
    exists c, tabl. by rewrite <- Hname.
Qed.

End Output.

Lemma traverseTables_unregistered_table_witness :
  traverseTables vehicle_conn scenario_Sprintf scenario_Sprintf scenario_Marshal
    1 vehicle_schema initial_session "person" "id" "p1"
  = match vehicle_conn (selectQuery "person" "id" "p1") with
    | QueryFailed => Panicked PanicQueryError
    | QueryRows _ => Panicked PanicIndexOutOfRange
    end.
Proof.
  apply traverseTables_unregistered_table. vm_compute.
  intros Hin. repeat (apply elem_of_cons in Hin as [Heq|Hin]; [discriminate Heq|]).
  by apply elem_of_nil in Hin.
Defined.

Lemma extraction_one_statement_per_table_witness :
  ∃ st',
    traverseTables vehicle_conn scenario_Sprintf scenario_Sprintf scenario_Marshal
      3 vehicle_schema initial_session "vehicle" "id" "v1" = Done st' ∧
    map fst (emit ["vehicle"; "manufacturer"]
               [mkTableContents "vehicle" ["id"; "make"]
                  ["'v1', 'm1'"; "'v1', 'm1'"];
                mkTableContents "manufacturer" ["id"] ["'m1'"]])
    ≡ₚ map TableName (fullContents st') ∧
    NoDup (map fst (emit ["vehicle"; "manufacturer"]
                      [mkTableContents "vehicle" ["id"; "make"]
                         ["'v1', 'm1'"; "'v1', 'm1'"];
                       mkTableContents "manufacturer" ["id"] ["'m1'"]])) ∧
    ∀ tableName stmt,
      (tableName, stmt) ∈ emit ["vehicle"; "manufacturer"]
                            [mkTableContents "vehicle" ["id"; "make"]
                               ["'v1', 'm1'"; "'v1', 'm1'"];
                             mkTableContents "manufacturer" ["id"] ["'m1'"]] →
      ∃ c tabl,
        stmt = insertStatement c ∧ TableName c = tableName ∧
        index (Tables vehicle_schema)
          (GetTableIndexByName vehicle_schema tableName) = Done tabl ∧
        InsertColumnNames c = map col_Name (Columns tabl) ∧
        ValuesRows c ≠ [].
Proof.
  apply (extraction_one_statement_per_table vehicle_conn scenario_Sprintf
           scenario_Sprintf scenario_Marshal 3 vehicle_schema "vehicle" "id" "v1").
  - compute_done.
  - vm_compute. reflexivity.
Defined.

(** ** Building the schema *)

Lemma tableNames_loop_spec (columnData : list Column) (tableNames : list string) :
  NoDup tableNames →
  NoDup (tableNames_loop columnData tableNames) ∧
  ∀ n, n ∈ tableNames_loop columnData tableNames ↔
       n ∈ tableNames ∨ n ∈ map Column_TableName columnData.
Proof.
  revert tableNames.
  induction columnData as [|col cd IH]; intros tableNames Hnodup; simpl.
  - split; [done|]. intros n. split; [by left|].
    by intros [?|?%elem_of_nil].
  - destruct (contains tableNames (Column_TableName col)) eqn:Hc;
      cbn [negb].
    + apply contains_elem_of in Hc.
      destruct (IH tableNames Hnodup) as [Hnd Hmem]. split; [done|].
      intros n. rewrite Hmem. split.
      * intros [Hn|Hn]; [by left|right; by right].
      * intros [Hn|[->|Hn]%elem_of_cons]; [by left|by left|by right].
    + assert (Column_TableName col ∉ tableNames) as Hnotin.
      { intros Hin%contains_elem_of. congruence. }
      destruct (IH (tableNames ++ [Column_TableName col])) as [Hnd Hmem].
      { apply NoDup_app. split; [done|]. split; [|apply NoDup_singleton].
        by intros x Hx [->|[]%elem_of_nil]%elem_of_cons. }
      split; [done|]. intros n. rewrite Hmem. split.
      * intros [[Hn|Hn%list_elem_of_singleton]%elem_of_app|Hn];
          [by left|right; subst n; left|right; by right].
      * intros [Hn|[->|Hn]%elem_of_cons].
        -- left. apply elem_of_app. by left.
        -- left. apply elem_of_app. right. by apply list_elem_of_singleton.
        -- by right.
Qed.

Lemma columnInfo_loop_spec (schemaData : list SchemaInfo) (tableName : string)
    (columnData : list Column) (columnInfo : list InspectedColumn) :
  columnInfo_loop schemaData tableName columnData columnInfo
  = columnInfo ++
    map (inspectColumn schemaData tableName)
      (filter (λ c, Column_TableName c = tableName) columnData).
Proof.
  revert columnInfo.
  induction columnData as [|c cd IH]; intros columnInfo; simpl.
  - by rewrite app_nil_r.
  - rewrite filter_cons. case_decide; rewrite IH; [|done].
    by rewrite <- app_assoc.
Qed.

Lemma foreign_loop_spec (schemaData : list SchemaInfo) (tableName columnName : string)
    (foreign : string * string) :
  foreign_loop schemaData tableName columnName foreign
  = match last (filter (λ d, SchemaInfo_TableName d = tableName ∧
                             SchemaInfo_ColumnName d = columnName) schemaData) with
    | Some d => (SchemaInfo_ForeignTableName d, SchemaInfo_ForeignColumnName d)
    | None => foreign
    end.
Proof.
  revert foreign.
  induction schemaData as [|d sd IH]; intros foreign; simpl; [done|].
  rewrite filter_cons. case_decide; rewrite IH; [|done].
  rewrite last_cons. by destruct (last _).
Qed.

(** X21. A column is a foreign key exactly as the constraint rows say:
    its target is taken from the last constraint row for its table and
    column name, and it has no target (empty names) when there is no
    such row. *)
Theorem inspectColumn_foreign_key (schemaData : list SchemaInfo)
    (tableName : string) (colData : Column) :
  (PointsToTable (inspectColumn schemaData tableName colData),
   PointsToColumn (inspectColumn schemaData tableName colData))
  = match last (filter (λ d, SchemaInfo_TableName d = tableName ∧
                             SchemaInfo_ColumnName d = Column_ColumnName colData)
                  schemaData) with
    | Some d => (SchemaInfo_ForeignTableName d, SchemaInfo_ForeignColumnName d)
    | None => ("", "")
    end.
Proof.
  unfold inspectColumn. simpl. rewrite foreign_loop_spec.
  by destruct (last _).
Qed.

Section SchemaBuildingProperties.

Variable sort_Slice : list Column → list Column.

Lemma buildSchema_loop_names (schemaData : list SchemaInfo)
    (tableNames : list string) (columnData : list Column) (fullInfo : ResultSet) :
  NoDup (map tbl_Name (Tables fullInfo) ++ tableNames) →
  (buildSchema_loop sort_Slice schemaData tableNames columnData fullInfo).2 = None ∧
  map tbl_Name
    (Tables (buildSchema_loop sort_Slice schemaData tableNames columnData fullInfo).1)
  = map tbl_Name (Tables fullInfo) ++ tableNames.
Proof.
  revert columnData fullInfo.
  induction tableNames as [|n rest IH]; intros columnData fullInfo Hnodup; simpl.
  - by rewrite app_nil_r.
  - assert (n ∉ map tbl_Name (Tables fullInfo)) as Hfresh.
    { apply NoDup_app in Hnodup as (_ & Hdisj & _).
      intros Hin. apply (Hdisj n Hin). left. }
    unfold AddTable. simpl.
    destruct (AddTable_scan (Tables fullInfo) n) eqn:Hscan.
    { by apply AddTable_scan_elem_of in Hscan. }
    simpl.
    ospecialize (IH (sort_Slice columnData)
                    (mkResultSet (Tables fullInfo ++
                       [mkTable n (columnInfo_loop schemaData n columnData [])])) _).
    { simpl. rewrite map_app. simpl. by rewrite <- app_assoc. }
    destruct IH as [Hnone Hnames]. split; [done|].
    rewrite Hnames. simpl. rewrite map_app. simpl. by rewrite <- app_assoc.
Qed.

Lemma buildSchema_names (schemaData : list SchemaInfo) (columnData : list Column) :
  (buildSchema sort_Slice schemaData columnData).2 = None ∧
  NoDup (map tbl_Name (Tables (buildSchema sort_Slice schemaData columnData).1)) ∧
  ∀ n, n ∈ map tbl_Name (Tables (buildSchema sort_Slice schemaData columnData).1)
       ↔ n ∈ map Column_TableName columnData.
Proof.
  unfold buildSchema.
  destruct (tableNames_loop_spec columnData []) as [Hnodup Hmem];
    [constructor|].
  destruct (buildSchema_loop_names schemaData (tableNames_loop columnData [])
              columnData (mkResultSet [])) as [Hnone Hnames]; [done|].
  split; [done|]. rewrite Hnames. simpl. split; [done|].
  intros n. rewrite Hmem. split; [|by right].
  by intros [?%elem_of_nil|?].
Qed.

(** X22. Building the schema never runs into the duplicate-table panic
    of [AddTable]: every table name that occurs in the column rows is
    registered exactly once, and no other name is registered. *)
Theorem buildSchema_registers_each_table_once (schemaData : list SchemaInfo)
    (columnData : list Column) :
  (buildSchema sort_Slice schemaData columnData).2 = None ∧
  NoDup (map tbl_Name (Tables (buildSchema sort_Slice schemaData columnData).1)) ∧
  ∀ n, n ∈ map tbl_Name (Tables (buildSchema sort_Slice schemaData columnData).1)
       ↔ n ∈ map Column_TableName columnData.
Proof. apply buildSchema_names. Qed.

Hypothesis sort_Slice_Permutation : ∀ columnData, sort_Slice columnData ≡ₚ columnData.

Lemma buildSchema_loop_columns (schemaData : list SchemaInfo)
    (tableNames : list string) (columnData columnData0 : list Column)
    (fullInfo : ResultSet) (t : InspectedTable) :
  columnData ≡ₚ columnData0 →
  t ∈ Tables (buildSchema_loop sort_Slice schemaData tableNames columnData fullInfo).1 →
  t ∈ Tables fullInfo ∨
  Columns t ≡ₚ map (inspectColumn schemaData (tbl_Name t))
                 (filter (λ c, Column_TableName c = tbl_Name t) columnData0).
Proof.
  revert columnData fullInfo.
  induction tableNames as [|n rest IH]; intros columnData fullInfo Hperm; simpl.
  - by left.
  - unfold AddTable. simpl.
    destruct (AddTable_scan (Tables fullInfo) n); simpl; [by left|].
    intros Hin. apply IH in Hin; [|by rewrite sort_Slice_Permutation].
    destruct Hin as [Hin|Hcols]; [|by right]. simpl in Hin.
    apply elem_of_app in Hin as [Hin|Hin%list_elem_of_singleton]; [by left|].
    right. subst t. simpl. rewrite columnInfo_loop_spec. simpl.
    by rewrite Hperm.
Qed.

(** X23. Whatever order the sorting leaves the column rows in, as long
    as it only permutes them, every registered table gets, up to their
    order, exactly the columns that the column rows list for it, and so
    at least one column. *)
Theorem buildSchema_columns (schemaData : list SchemaInfo)
    (columnData : list Column) (t : InspectedTable) :
  t ∈ Tables (buildSchema sort_Slice schemaData columnData).1 →
  Columns t ≡ₚ map (inspectColumn schemaData (tbl_Name t))
                 (filter (λ c, Column_TableName c = tbl_Name t) columnData) ∧
  Columns t ≠ [].
Proof.
  intros Hin.
  assert (Columns t ≡ₚ map (inspectColumn schemaData (tbl_Name t))
            (filter (λ c, Column_TableName c = tbl_Name t) columnData)) as Hcols.
  { unfold buildSchema in Hin.
    eapply buildSchema_loop_columns in Hin as [Hin|Hcols]; [|done|done].
    by apply elem_of_nil in Hin. }
  split; [done|]. intros Hnil. rewrite Hnil in Hcols.
  apply Permutation_nil_l in Hcols. symmetry in Hcols.
  apply map_eq_nil in Hcols.
  assert (tbl_Name t ∈ map Column_TableName columnData) as Hname.
  { apply (proj2 (proj2 (buildSchema_names schemaData columnData))).
    apply list_elem_of_In, in_map. by apply list_elem_of_In. }
  apply list_elem_of_In, in_map_iff in Hname as (c & Hc & Hcin).
  assert (c ∈ filter (λ c, Column_TableName c = tbl_Name t) columnData) as Hf.
  { apply list_elem_of_filter. split; [done|]. by apply list_elem_of_In. }
  rewrite Hcols in Hf. by apply elem_of_nil in Hf.
Qed.

End SchemaBuildingProperties.

Lemma traverseTables_visited_unique_witness : NoDup ["m1"].
Proof.
  apply (traverseTables_visited_unique vehicle_conn scenario_Sprintf
           scenario_Sprintf scenario_Marshal 3 vehicle_schema initial_session
           (mkSession
              [mkTableContents "vehicle" ["id"; "make"]
                 ["'v1', 'm1'"; "'v1', 'm1'"];
               mkTableContents "manufacturer" ["id"] ["'m1'"]]
              ["m1"])
           "vehicle" "id" "v1").
  - constructor.
  - vm_compute. reflexivity.
Defined.

Lemma buildSchema_columns_witness :
  Columns (mkTable "vehicle"
             [mkColumn "make" "text" "manufacturer" "id" 2;
              mkColumn "id" "text" "" "" 1])
  ≡ₚ map (inspectColumn vehicle_schemaData "vehicle")
       (filter (λ c, Column_TableName c = "vehicle") vehicle_columnData) ∧
  Columns (mkTable "vehicle"
             [mkColumn "make" "text" "manufacturer" "id" 2;
              mkColumn "id" "text" "" "" 1]) ≠ [].
Proof.
  apply (buildSchema_columns sort_by_OrdinalPosition
           (merge_sort_Permutation OrdinalPosition_le)
           vehicle_schemaData vehicle_columnData
           (mkTable "vehicle"
              [mkColumn "make" "text" "manufacturer" "id" 2;
               mkColumn "id" "text" "" "" 1])).
  vm_compute. left.
Defined.

(** ** What the output of an extraction depends on *)

Lemma replay_app (fc : list tableContents)
    (log1 log2 : list (string * InspectedTable * string)) :
  replay fc (log1 ++ log2) = replay (replay fc log1) log2.
Proof. apply foldl_app. Qed.

Section Frame.

Variable conn_Query : string → QueryResult.
Variable Sprintf_v : Value → string.
Variable Sprintf_plus_v : Value → string.
Variable json_Marshal : Value → option string.

Lemma forward_frames (rec : traversal) (fromTable : string)
    (resultData : gmap string Value) (ts : list InspectedTable) (st st' : Session) :
  frames rec →
  traverseTables_forward Sprintf_v rec fromTable resultData ts st = Done st' →
  ∃ log,
    fullContents st' = replay (fullContents st) log ∧
    ∀ fc, traverseTables_forward Sprintf_v rec fromTable resultData ts
            (mkSession fc (visited st))
          = Done (mkSession (replay fc log) (visited st')).
Proof.
  intros Hrec. revert st.
  induction ts as [|t ts IH]; intros st; simpl.
  - intros [= <-]. exists []. split; [done|]. by intros fc.
  - destruct (HasPointerToTable t fromTable) as [col|]; [|apply IH].
    intros (ident & Hident & (st1 & Hcall & Hrest)%bind_Done_inv)%bind_Done_inv.
    destruct (Hrec _ _ _ _ _ Hcall) as (log1 & Hfc1 & Hany1).
    destruct (IH _ Hrest) as (log2 & Hfc2 & Hany2).
    exists (log1 ++ log2). split.
    + by rewrite replay_app, <- Hfc1.
    + intros fc. rewrite Hident. cbn. rewrite Hany1. cbn.
      by rewrite (Hany2 (replay fc log1)), replay_app.
Qed.

Lemma backward_frames (rec : traversal) (resultData : gmap string Value)
    (cols : list InspectedColumn) (st st' : Session) :
  frames rec →
  traverseTables_backward Sprintf_v rec resultData cols st = Done st' →
  ∃ log,
    fullContents st' = replay (fullContents st) log ∧
    ∀ fc, traverseTables_backward Sprintf_v rec resultData cols
            (mkSession fc (visited st))
          = Done (mkSession (replay fc log) (visited st')).
Proof.
  intros Hrec. revert st.
  induction cols as [|col cols IH]; intros st; cbn [traverseTables_backward].
  - intros [= <-]. exists []. split; [done|]. by intros fc.
  - case_decide; [|apply IH].
    destruct (resultData_get resultData (col_Name col)); cbv beta iota;
      try apply IH.
    all: intros (ident & Hident & Hrest)%bind_Done_inv.
    all: rewrite Hident; cbn [visited].
    all: destruct (contains (visited st) ident) eqn:Hseen;
      [destruct (IH _ Hrest) as (log & Hfc & Hany); exists log;
       split; [done|]; intros fc; cbn; rewrite Hseen; apply Hany|].
    all: apply bind_Done_inv in Hrest as (st1 & Hcall & Hrest).
    all: destruct (Hrec _ _ _ _ _ Hcall) as (log1 & Hfc1 & Hany1).
    all: cbn in Hfc1.
    all: destruct (IH _ Hrest) as (log2 & Hfc2 & Hany2).
    all: exists (log1 ++ log2); split;
      [by rewrite replay_app, <- Hfc1|].
    all: intros fc; cbn; rewrite Hseen; cbn in Hany1; rewrite Hany1; cbn.
    all: by rewrite (Hany2 (replay fc log1)), replay_app.
Qed.

Lemma body_frames (rec : traversal) (resSet : ResultSet) :
  frames rec →
  frames (traverseTables_body conn_Query Sprintf_v Sprintf_plus_v json_Marshal
            rec resSet).
Proof.
  intros Hrec st fromTable identifyingColumnName identifier st'.
  unfold traverseTables_body.
  destruct (conn_Query _) as [|rows]; [done|].
  intros (tabl & Htabl & Hrest)%bind_Done_inv.
  apply bind_Done_inv in Hrest as (fetched & Hfetch & Hrest).
  apply bind_Done_inv in Hrest as (rowStringVals & Hvals & Hrest).
  apply bind_Done_inv in Hrest as (st1 & Hfwd & Hbwd).
  destruct (forward_frames _ _ _ _ _ _ Hrec Hfwd) as (log1 & Hfc1 & Hany1).
  destruct (backward_frames _ _ _ _ _ Hrec Hbwd) as (log2 & Hfc2 & Hany2).
  exists ((fromTable, tabl, strings_Join rowStringVals ", ") :: log1 ++ log2).
  split.
  - rewrite Hfc2, Hfc1, <- replay_app. reflexivity.
  - intros fc. rewrite Htabl. cbn. rewrite Hfetch. cbn. rewrite Hvals. cbn.
    pose proof (Hany1 (recordRow fc fromTable tabl
                         (strings_Join rowStringVals ", "))) as Hfwd2.
    unfold recordRow in Hfwd2. cbn in Hfwd2. rewrite Hfwd2. cbn.
    rewrite Hany2, <- replay_app. reflexivity.
Qed.

Lemma traverseTables_frames (fuel : nat) (resSet : ResultSet) :
  frames (traverseTables conn_Query Sprintf_v Sprintf_plus_v json_Marshal
            fuel resSet).
Proof.
  induction fuel as [|fuel IH]; [by intros ?????|].
  simpl. by apply body_frames.
Qed.

End Frame.

Section StartState.

Variable conn_Query : string → QueryResult.
Variable Sprintf_v : Value → string.
Variable Sprintf_plus_v : Value → string.
Variable json_Marshal : Value → option string.

Lemma traverseTables_same_result (n1 n2 : nat) (resSet : ResultSet) (st st1 st2 : Session)
    (fromTable identifyingColumnName identifier : string) :
  traverseTables conn_Query Sprintf_v Sprintf_plus_v json_Marshal n1 resSet
    st fromTable identifyingColumnName identifier = Done st1 →
  traverseTables conn_Query Sprintf_v Sprintf_plus_v json_Marshal n2 resSet
    st fromTable identifyingColumnName identifier = Done st2 →
  st1 = st2.
Proof.
  intros H1 H2. destruct (Nat.le_ge_cases n1 n2) as [Hle|Hle].
  - rewrite (traverseTables_fuel_mono _ _ _ _ n1 n2 resSet Hle) in H2;
      [congruence|by rewrite H1].
  - rewrite (traverseTables_fuel_mono _ _ _ _ n2 n1 resSet Hle) in H1;
      [congruence|by rewrite H2].
Qed.

(** C7, as the code has it.  For a fixed connection (database state),
    schema and seed, what an invocation of the traversal adds is
    determined by the visited list it starts with: two invocations that
    start with the same visited list, on top of whatever table contents,
    end with the same visited list and record the same rows in the same
    order.  Two invocations that start from the same package state, as
    every run of [main] does from the empty one, therefore emit the same
    statements in the same order. *)
Theorem extraction_determined_by_start_state (n1 n2 : nat) (resSet : ResultSet)
    (fc1 fc2 : list tableContents) (seen : list string)
    (startAtTable identifyingColumnName identifier : string)
    (st1 st2 : Session) :
  traverseTables conn_Query Sprintf_v Sprintf_plus_v json_Marshal n1 resSet
    (mkSession fc1 seen) startAtTable identifyingColumnName identifier = Done st1 →
  traverseTables conn_Query Sprintf_v Sprintf_plus_v json_Marshal n2 resSet
    (mkSession fc2 seen) startAtTable identifyingColumnName identifier = Done st2 →
  visited st1 = visited st2 ∧
  (∃ log, fullContents st1 = replay fc1 log ∧ fullContents st2 = replay fc2 log) ∧
  (fc1 = fc2 →
   emit (DetermineInsertTableOrder resSet) (fullContents st1)
   = emit (DetermineInsertTableOrder resSet) (fullContents st2)).
Proof.
  intros Hrun1 Hrun2.
  destruct (traverseTables_frames conn_Query Sprintf_v Sprintf_plus_v json_Marshal
              n1 resSet _ _ _ _ _ Hrun1) as (log & Hfc1 & Hany).
  specialize (Hany fc2). cbn in Hany, Hfc1.
  pose proof (traverseTables_same_result _ _ _ _ _ _ _ _ _ Hany Hrun2) as <-.
  cbn. split; [done|]. split; [by exists log|].
  intros <-. by rewrite Hfc1.
Qed.

End StartState.

Lemma extraction_determined_by_start_state_witness :
  visited (mkSession
             [mkTableContents "vehicle" ["id"; "make"] ["'v1', 'm1'"; "'v1', 'm1'"];
              mkTableContents "manufacturer" ["id"] ["'m1'"]]
             ["m1"])
  = visited (mkSession
               [mkTableContents "manufacturer" ["id"] ["'m0'"; "'m1'"];
                mkTableContents "vehicle" ["id"; "make"] ["'v1', 'm1'"; "'v1', 'm1'"]]
               ["m1"]) ∧
  (∃ log,
     fullContents
       (mkSession
          [mkTableContents "vehicle" ["id"; "make"] ["'v1', 'm1'"; "'v1', 'm1'"];
           mkTableContents "manufacturer" ["id"] ["'m1'"]]
          ["m1"])
     = replay [] log ∧
     fullContents
       (mkSession
          [mkTableContents "manufacturer" ["id"] ["'m0'"; "'m1'"];
           mkTableContents "vehicle" ["id"; "make"] ["'v1', 'm1'"; "'v1', 'm1'"]]
          ["m1"])
     = replay [mkTableContents "manufacturer" ["id"] ["'m0'"]] log) ∧
  ([] = [mkTableContents "manufacturer" ["id"] ["'m0'"]] →
   emit (DetermineInsertTableOrder vehicle_schema)
     (fullContents
        (mkSession
           [mkTableContents "vehicle" ["id"; "make"] ["'v1', 'm1'"; "'v1', 'm1'"];
            mkTableContents "manufacturer" ["id"] ["'m1'"]]
           ["m1"]))
   = emit (DetermineInsertTableOrder vehicle_schema)
       (fullContents
          (mkSession
             [mkTableContents "manufacturer" ["id"] ["'m0'"; "'m1'"];
              mkTableContents "vehicle" ["id"; "make"] ["'v1', 'm1'"; "'v1', 'm1'"]]
             ["m1"]))).
Proof.
  apply (extraction_determined_by_start_state vehicle_conn scenario_Sprintf
           scenario_Sprintf scenario_Marshal 3 5 vehicle_schema
           [] [mkTableContents "manufacturer" ["id"] ["'m0'"]] []
           "vehicle" "id" "v1").
  - vm_compute. reflexivity.
  - vm_compute. reflexivity.
Defined.

(** C7, as it is stated, fails: the package-level variables outlive an
    invocation, so a second invocation in the same process, with the
    same seed on the same database, emits other statements than the
    first one did. *)
Lemma repeated_extraction_differs :
  ∃ st1 st2,
    traverseTables vehicle_conn scenario_Sprintf scenario_Sprintf scenario_Marshal
      3 vehicle_schema initial_session "vehicle" "id" "v1" = Done st1 ∧
    traverseTables vehicle_conn scenario_Sprintf scenario_Sprintf scenario_Marshal
      3 vehicle_schema st1 "vehicle" "id" "v1" = Done st2 ∧
    emit (DetermineInsertTableOrder vehicle_schema) (fullContents st1)
    ≠ emit (DetermineInsertTableOrder vehicle_schema) (fullContents st2).
Proof.
  eexists _, _. split; [vm_compute; reflexivity|].
  split; [vm_compute; reflexivity|]. vm_compute. discriminate.
Qed.
